(** * linguist-color-checker: hex colours, colour spaces, CIE94 and ranking

    A shallow embedding of [main.go].  Go strings are byte sequences
    ([string], a list of [ascii]); [uint8] is [byte]; [float64] is the
    kernel's binary64 [float], whose operations are the IEEE 754 ones Go
    uses (round to nearest even, no fused multiply-add, as the Go
    compiler emits for amd64); Go maps are [gmap]s, and a [range] over a
    map is a traversal of its entries in an arbitrary order. *)

From Stdlib Require Import ZArith NArith List Ascii String Floats Lia Bool.
From Stdlib Require Import Strings.Byte.
From Stdlib Require Import Sorting.Sorted.
From stdpp Require Import base list sorting gmap strings.

Local Open Scope string_scope.

(** ** encoding/hex (Go standard library) *)

Module hex.

(** The errors [hex.DecodeString] returns. *)
Inductive Error :=
| ErrLength
| InvalidByteError (b : ascii).

(** [fromHexChar]: the value of one hexadecimal digit. *)
Definition fromHexChar (c : ascii) : option N :=
  let n := N_of_ascii c in
  if ((48 <=? n) && (n <=? 57))%N then Some (n - 48)%N
  else if ((97 <=? n) && (n <=? 102))%N then Some (n - 97 + 10)%N
  else if ((65 <=? n) && (n <=? 70))%N then Some (n - 65 + 10)%N
  else None.

(** [(a << 4) | b] stored in a byte. *)
Definition pack (a b : N) : byte :=
  byte_of_ascii (ascii_of_N (N.lor (N.shiftl a 4) b)).

(** [Decode]: the bytes decoded before the first error, and that error.
    Two digits make a byte; a digit left alone at the end is
    [ErrLength], unless it is not a digit at all.  (Releases of Go differ
    in which error a string of odd length gets; [HexToRGB] only decodes
    six characters.) *)
Fixpoint Decode (src : string) : list byte * option Error :=
  match src with
  | EmptyString => ([], None)
  | String p EmptyString =>
      match fromHexChar p with
      | None => ([], Some (InvalidByteError p))
      | Some _ => ([], Some ErrLength)
      end
  | String p (String q rest) =>
      match fromHexChar p with
      | None => ([], Some (InvalidByteError p))
      | Some a =>
          match fromHexChar q with
          | None => ([], Some (InvalidByteError q))
          | Some b =>
              let '(bs, err) := Decode rest in (pack a b :: bs, err)
          end
      end
  end.

Definition DecodeString (s : string) : list byte * option Error := Decode s.

End hex.

(** ** Colour types *)

(** Field [F] of a Go struct [T] is the projection [T_F]. *)
Record RGB := mkRGB { RGB_R : byte; RGB_G : byte; RGB_B : byte }.

Record XYZ := mkXYZ { XYZ_X : float; XYZ_Y : float; XYZ_Z : float }.

Record LAB := mkLAB { LAB_L : float; LAB_A : float; LAB_B : float }.

(** Go's [error] values, as this program makes them. *)
Inductive error :=
| errorString (msg : string)
| hexError (e : hex.Error).

(** The zero value [RGB{}]. *)
Definition RGB_zero : RGB := mkRGB x00 x00 x00.

(** [s[1:]]; Go panics on an empty string, which [HexToRGB] never slices. *)
Definition tail1 (s : string) : string :=
  match s with
  | EmptyString => EmptyString
  | String _ t => t
  end.

(** ** HexToRGB *)

Definition HexToRGB (s : string) : RGB * option error :=
  if negb (Nat.eqb (String.length s) 7) then
    (RGB_zero, Some (errorString "expected hex color of form: #RRGGBB"))
  else
    let '(b, err) := hex.DecodeString (tail1 s) in
    match err with
    | Some e => (RGB_zero, Some (hexError e))
    | None =>
        match b with
        | [b0; b1; b2] => (mkRGB b0 b1 b2, None)
        | _ => (RGB_zero, Some (errorString "decoded hex length != 3"))
        end
    end.

(** The two error kinds of the specification. *)
Inductive ErrorKind := InvalidFormat | InvalidHex.

Definition kindOf (e : error) : ErrorKind :=
  match e with
  | errorString msg =>
      if String.eqb msg "expected hex color of form: #RRGGBB"
      then InvalidFormat else InvalidHex
  | hexError _ => InvalidHex
  end.

(** ** RGBToXYZ and XYZToLAB

    [math.Pow] is the Go standard library's; the conversions are written
    over it. *)

#[local] Set Warnings "-inexact-float".
Local Close Scope string_scope.
Local Open Scope float_scope.

(** [float64(b)] for a [uint8]. *)
Definition float64_of_uint8 (b : byte) : float :=
  of_uint63 (Uint63.of_Z (Z.of_N (Byte.to_N b))).

Section Conversions.

Variable Pow : float -> float -> float.

Definition RGBToXYZ (c : RGB) : XYZ :=
  let Norm := fun n : float =>
    if 0.04045 <? n then Pow ((n + 0.055) / 1.055) 2.4
    else n / 12.92 in
  let vR := Norm (float64_of_uint8 (RGB_R c) / 255) * 100 in
  let vG := Norm (float64_of_uint8 (RGB_G c) / 255) * 100 in
  let vB := Norm (float64_of_uint8 (RGB_B c) / 255) * 100 in
  {| XYZ_X := vR * 0.4124 + vG * 0.3576 + vB * 0.1805;
     XYZ_Y := vR * 0.2126 + vG * 0.7152 + vB * 0.0722;
     XYZ_Z := vR * 0.0193 + vG * 0.1192 + vB * 0.9505 |}.

(** Reference white: observer 10 degrees (CIE 1964), illuminant F5. *)
Definition rX : float := 93.369.
Definition rY : float := 100.000.
Definition rZ : float := 98.636.

(** [1.0 / 3.0] and [16.0 / 116.0] are constant expressions: Go evaluates
    them exactly and rounds once, which is what the correctly rounded
    division of two exact operands gives. *)
Definition XYZToLAB (c : XYZ) : LAB :=
  let Norm := fun n : float =>
    if 0.008856 <? n then Pow n (1.0 / 3.0)
    else (7.787 * n) + (16.0 / 116.0) in
  let vX := Norm (XYZ_X c / rX) in
  let vY := Norm (XYZ_Y c / rY) in
  let vZ := Norm (XYZ_Z c / rZ) in
  {| LAB_L := 116 * vY - 16;
     LAB_A := 500 * (vX - vY);
     LAB_B := 200 * (vY - vZ) |}.

End Conversions.

(** ** CIE94Diff *)

(** Weighting factors *)
Definition wL : float := 1.0.
Definition wC : float := 1.0.
Definition wH : float := 1.0.

Definition CIE94Diff (c1 c2 : LAB) : float :=
  let xC1 := sqrt (LAB_A c1 * LAB_A c1 + LAB_B c1 * LAB_B c1) in
  let xC2 := sqrt (LAB_A c2 * LAB_A c2 + LAB_B c2 * LAB_B c2) in
  let xDL := LAB_L c2 - LAB_L c1 in
  let xDC := xC2 - xC1 in
  let xDE := sqrt (((LAB_L c1 - LAB_L c2) * (LAB_L c1 - LAB_L c2)) +
                   ((LAB_A c1 - LAB_A c2) * (LAB_A c1 - LAB_A c2)) +
                   ((LAB_B c1 - LAB_B c2) * (LAB_B c1 - LAB_B c2))) in
  let xDH := (xDE * xDE) - (xDL * xDL) - (xDC * xDC) in
  let xDH := if 0 <? xDH then sqrt xDH else 0 in
  let xSC := 1 + (0.045 * xC1) in
  let xSH := 1 + (0.015 * xC1) in
  let xDL := xDL / wL in
  let xDC := xDC / (wC * xSC) in
  let xDH := xDH / (wH * xSH) in
  sqrt (xDL * xDL + xDC * xDC + xDH * xDH).

(** ** main: the table of colours, the difference lists, the report *)

Record Language := mkLanguage { Language_Color : string }.

Record LanguageColor := mkLanguageColor {
  LanguageColor_Name : string;
  LanguageColor_Color : LAB
}.

Record LanguageColorDiff := mkLanguageColorDiff {
  LanguageColorDiff_Name : string;
  LanguageColorDiff_Diff : float
}.

(** The comparison handed to [sort.Slice]: [diffs[i].Diff < diffs[j].Diff]. *)
Definition lessDiff (a b : LanguageColorDiff) : bool :=
  LanguageColorDiff_Diff a <? LanguageColorDiff_Diff b.

(** [insertionSortLessFunc] of package sort, which is all [sort.Slice]
    runs on a slice of fewer than seven elements: each element in turn
    is swapped towards the front while it is less than the one before
    it.  [insertBack x rp] works on the reversed sorted prefix [rp]. *)
Fixpoint insertBack {T} (less : T -> T -> bool) (x : T) (rp : list T) : list T :=
  match rp with
  | [] => [x]
  | y :: rp' => if less x y then y :: insertBack less x rp' else x :: rp
  end.

Definition insertionSort {T} (data : list T) (less : T -> T -> bool) : list T :=
  rev (fold_left (fun rp x => insertBack less x rp) data []).

Section Main.

Variable Pow : float -> float -> float.

(** [sort.Slice] of the Go standard library, on a slice of differences. *)
Variable sort_Slice :
  list LanguageColorDiff -> (LanguageColorDiff -> LanguageColorDiff -> bool) ->
  list LanguageColorDiff.

(** Lines 56-66: [kvs] is the sequence of entries the [range] over
    [languages] visits. *)
Definition main_tfc (kvs : list (string * Language)) : list LanguageColor :=
  fold_left
    (fun tfc '(lang, data) =>
       let '(rgb, err) := HexToRGB (Language_Color data) in
       match err with
       | Some _ => tfc
       | None =>
           let c := mkLanguageColor lang (XYZToLAB Pow (RGBToXYZ Pow rgb)) in
           tfc ++ [c]
       end)
    kvs [].

(** Lines 72-79: the inner loop for one [lang]. *)
Definition main_diffs (lang : LanguageColor) (tfc : list LanguageColor)
  : list LanguageColorDiff :=
  fold_left
    (fun diffs compLang =>
       if String.eqb (LanguageColor_Name lang) (LanguageColor_Name compLang)
       then diffs
       else diffs ++ [mkLanguageColorDiff (LanguageColor_Name compLang)
                        (CIE94Diff (LanguageColor_Color lang)
                                   (LanguageColor_Color compLang))])
    tfc [].

(** Lines 69-86. *)
Definition main_tfcd (tfc : list LanguageColor)
  : gmap string (list LanguageColorDiff) :=
  fold_left
    (fun tfcd lang =>
       let diffs := main_diffs lang tfc in
       let diffs := sort_Slice diffs lessDiff in
       <[LanguageColor_Name lang := diffs]> tfcd)
    tfc ∅.

(** Lines 136-144: the loop that stops at the first difference not below
    the threshold. *)
Fixpoint main_filtered (diffs : list LanguageColorDiff) (diffThreshold : float)
  : list LanguageColorDiff :=
  match diffs with
  | [] => []
  | diff :: rest =>
      if diffThreshold <=? LanguageColorDiff_Diff diff then []
      else diff :: main_filtered rest diffThreshold
  end.

(** Lines 135-183: what is rendered, one block per language of [langs]
    with its filtered differences; indexing a map at a missing key gives
    the nil slice. *)
Definition main_render (tfcd : gmap string (list LanguageColorDiff))
  (langs : list string) (diffThreshold : float)
  : list (string * list LanguageColorDiff) :=
  fold_left
    (fun out lang =>
       let filtered := main_filtered (default [] (tfcd !! lang)) diffThreshold in
       if Nat.eqb (List.length filtered) 0 then out
       else out ++ [(lang, filtered)])
    langs [].

(** The whole of [main] for a parsed configuration [languages] visited in
    the order [kvs]. *)
Definition main_report (kvs : list (string * Language)) (langs : list string)
  (diffThreshold : float) : list (string * list LanguageColorDiff) :=
  main_render (main_tfcd (main_tfc kvs)) langs diffThreshold.

End Main.

(** Lines 125-133: the languages to report, the command line's arguments
    if there are any, the configured names sorted otherwise.  This
    [range] visits the map in an order of its own, [kvs]. *)
Section MainLangs.

(** [sort.Strings] of the Go standard library. *)
Variable sort_Strings : list string -> list string.

Definition main_langs (args : list string) (kvs : list (string * Language))
  : list string :=
  if negb (Nat.eqb (List.length args) 0) then args
  else sort_Strings (fold_left (fun langs '(name, _) => langs ++ [name]) kvs []).

End MainLangs.

(** [main] from the parsed configuration to what is rendered: [kvs1] and
    [kvs2] are the orders of its two [range]s over [languages]. *)
Definition main_run (Pow : float -> float -> float)
  (sort_Slice : list LanguageColorDiff ->
                (LanguageColorDiff -> LanguageColorDiff -> bool) ->
                list LanguageColorDiff)
  (sort_Strings : list string -> list string)
  (kvs1 kvs2 : list (string * Language)) (args : list string)
  (diffThreshold : float) : list (string * list LanguageColorDiff) :=
  main_report Pow sort_Slice kvs1 (main_langs sort_Strings args kvs2)
    diffThreshold.

(** * The specification's formulas and the predicates of the properties *)

(** ** Section 4.1: the conversions *)

Section Specification.

Variable Pow : float -> float -> float.

(** The formulas of the specification, section 4.1, written as it words
    them: [x ^ y] is [Pow x y]. *)
Definition srgb_inverse_gamma (n : float) : float :=
  if 0.04045 <? n then Pow ((n + 0.055) / 1.055) 2.4 else n / 12.92.

Definition scaled_channel (b : byte) : float :=
  srgb_inverse_gamma (float64_of_uint8 b / 255) * 100.

Definition rgbToXYZ_spec (c : RGB) : XYZ :=
  let r := scaled_channel (RGB_R c) in
  let g := scaled_channel (RGB_G c) in
  let b := scaled_channel (RGB_B c) in
  mkXYZ (0.4124 * r + 0.3576 * g + 0.1805 * b)
        (0.2126 * r + 0.7152 * g + 0.0722 * b)
        (0.0193 * r + 0.1192 * g + 0.9505 * b).

Definition lab_f (n : float) : float :=
  if 0.008856 <? n then Pow n (1 / 3) else 7.787 * n + 16 / 116.

Definition xyzToLAB_spec (c : XYZ) : LAB :=
  let X0 := 93.369 in
  let Y0 := 100.000 in
  let Z0 := 98.636 in
  mkLAB (116 * lab_f (XYZ_Y c / Y0) - 16)
        (500 * (lab_f (XYZ_X c / X0) - lab_f (XYZ_Y c / Y0)))
        (200 * (lab_f (XYZ_Y c / Y0) - lab_f (XYZ_Z c / Z0))).

End Specification.

(** ** Section 4.2: CIE94 *)

(** Specification, section 4.2, steps 1 to 7, with [kL = kC = kH = 1]. *)
Definition sq (x : float) : float := x * x.

Definition chroma (c : LAB) : float := sqrt (sq (LAB_A c) + sq (LAB_B c)).

Definition kL : float := 1.
Definition kC : float := 1.
Definition kH : float := 1.

Definition cie94_SC (c1 : LAB) : float := 1 + 0.045 * chroma c1.
Definition cie94_SH (c1 : LAB) : float := 1 + 0.015 * chroma c1.

Definition cie94_spec (c1 c2 : LAB) : float :=
  let dL := LAB_L c2 - LAB_L c1 in
  let dC := chroma c2 - chroma c1 in
  let dE := sqrt (sq (LAB_L c1 - LAB_L c2) + sq (LAB_A c1 - LAB_A c2)
                  + sq (LAB_B c1 - LAB_B c2)) in
  let dH2 := sq dE - sq dL - sq dC in
  let dH := if 0 <? dH2 then sqrt dH2 else 0 in
  sqrt (sq (dL / kL) + sq (dC / (kC * cie94_SC c1))
        + sq (dH / (kH * cie94_SH c1))).

(** ** Classes of binary64 numbers *)

(** A number of sign [s]: a zero, a finite number or an infinity. *)
Definition SFclass (s : bool) (x : spec_float) : Prop :=
  match x with
  | S754_zero s' | S754_infinity s' | S754_finite s' _ _ => s' = s
  | S754_nan => False
  end.

(** A zero, a positive number or plus infinity. *)
Definition SFnonneg (x : spec_float) : Prop :=
  match x with
  | S754_zero _ => True
  | S754_infinity s | S754_finite s _ _ => s = false
  | S754_nan => False
  end.

(** A positive number or plus infinity. *)
Definition SFpositive (x : spec_float) : Prop :=
  match x with
  | S754_infinity s | S754_finite s _ _ => s = false
  | _ => False
  end.

(** Zero or a finite number, as the specification sees it. *)
Definition SFfinite (x : spec_float) : Prop :=
  match x with
  | S754_zero _ | S754_finite _ _ _ => True
  | _ => False
  end.

(** A number that is not NaN. *)
Definition nonNaN (x : float) : Prop := Prim2SF x <> S754_nan.

(** A zero, a positive number or plus infinity. *)
Definition nonneg (x : float) : Prop := SFnonneg (Prim2SF x).

(** All three components finite. *)
Definition LAB_finite (c : LAB) : bool :=
  is_finite (LAB_L c) && is_finite (LAB_A c) && is_finite (LAB_B c).

(** ** The order of binary64 numbers *)

(** Numbers (all but NaN) are ordered like these keys, compared
    lexicographically. *)
Definition SFkey (x : spec_float) : Z * Z * Z :=
  match x with
  | S754_infinity true => (-2, 0, 0)%Z
  | S754_finite true m e => (-1, - e, - Z.pos m)%Z
  | S754_zero _ | S754_nan => (0, 0, 0)%Z
  | S754_finite false m e => (1, e, Z.pos m)%Z
  | S754_infinity false => (2, 0, 0)%Z
  end.

Definition key_lt (a b : Z * Z * Z) : Prop :=
  let '(a1, a2, a3) := a in
  let '(b1, b2, b3) := b in
  (a1 < b1 \/ (a1 = b1 /\ (a2 < b2 \/ (a2 = b2 /\ a3 < b3))))%Z.

Definition float_key (x : float) : Z * Z * Z := SFkey (Prim2SF x).

(** ** Sorting *)

(** What package sort asks of [less]: "a transitive ordering", both for
    [less] and for its complement, here on the elements of [l]. *)
Definition StrictWeakOn {T} (less : T -> T -> bool) (l : list T) : Prop :=
  (forall x, x ∈ l -> less x x = false) /\
  (forall x y z, x ∈ l -> y ∈ l -> z ∈ l ->
     less x y = true -> less y z = true -> less x z = true) /\
  (forall x y z, x ∈ l -> y ∈ l -> z ∈ l ->
     less x y = false -> less y z = false -> less x z = false).

(** Sorted by [less]: no element is less than one that stands before it. *)
Definition SortedBy {T} (less : T -> T -> bool) (l : list T) : Prop :=
  StronglySorted (fun a b => less b a = false) l.

(** No difference of the list is NaN. *)
Definition noNaN (l : list LanguageColorDiff) : Prop :=
  Forall (fun d => is_nan (LanguageColorDiff_Diff d) = false) l.

(** Ascending by [Diff]: every entry is [<=] all that follow it. *)
Definition ascending (l : list LanguageColorDiff) : Prop :=
  StronglySorted
    (fun a b => (LanguageColorDiff_Diff a <=? LanguageColorDiff_Diff b) = true) l.

(** ** The loops of [main] *)

(** The entry [compLang] contributes to the list of [lang]. *)
Definition diffEntry (lang compLang : LanguageColor) : LanguageColorDiff :=
  mkLanguageColorDiff (LanguageColor_Name compLang)
    (CIE94Diff (LanguageColor_Color lang) (LanguageColor_Color compLang)).

(** The colour parses. *)
Definition parses (data : Language) : bool :=
  match snd (HexToRGB (Language_Color data)) with
  | None => true
  | Some _ => false
  end.

(** The colour a parsed entry gets. *)
Definition labOf (Pow : float -> float -> float) (data : Language) : LAB :=
  XYZToLAB Pow (RGBToXYZ Pow (fst (HexToRGB (Language_Color data)))).

(** [name] is configured with a colour that parses. *)
Definition validIn (languages : gmap string Language) (name : string) : Prop :=
  exists data, languages !! name = Some data /\ parses data = true.

(** ** Characters and strings *)

(** The characters of a string. *)
Definition chars (s : string) : list ascii := list_ascii_of_string s.

(** A hexadecimal digit. *)
Definition isHexDigit (c : ascii) : Prop := is_Some (hex.fromHexChar c).

(** ASCII upper case of one character, and of a string. *)
Definition upperChar (c : ascii) : ascii :=
  let n := N_of_ascii c in
  if ((97 <=? n) && (n <=? 122))%N then ascii_of_N (n - 32) else c.

Fixpoint upper (s : string) : string :=
  match s with
  | EmptyString => EmptyString
  | String c t => String (upperChar c) (upper t)
  end.

(** Some component of the colour is NaN. *)
Definition LAB_has_nan (c : LAB) : bool :=
  is_nan (LAB_L c) || is_nan (LAB_A c) || is_nan (LAB_B c).

(** Two numbers that differ at most in their sign. *)
Definition SFsame_abs (x y : spec_float) : Prop := SFabs x = SFabs y.

(** The filtered list of [lang] is not empty. *)
Definition reported (tfcd : gmap string (list LanguageColorDiff))
  (diffThreshold : float) (lang : string) : Prop :=
  main_filtered (default [] (tfcd !! lang)) diffThreshold <> [].

(** ** Inputs for the examples *)

(** The theorems hold for every function in the place of [math.Pow];
    where one has to be named, this is it. *)
Definition Pow_example : float -> float -> float := fun x _ => x.

Definition languages_example : gmap string Language :=
  {[ "A"%string := mkLanguage "#FF0000"; "B"%string := mkLanguage "notacolor" ]}.

Definition languages_rgb : gmap string Language :=
  {[ "Red"%string := mkLanguage "#FF0000";
     "Crimson"%string := mkLanguage "#FE0000";
     "Blue"%string := mkLanguage "#0000FF";
     "Broken"%string := mkLanguage "blue" ]}.

Definition tfc_example : list LanguageColor :=
  [ mkLanguageColor "A"%string (mkLAB 50 10 20);
    mkLanguageColor "B"%string (mkLAB 55 (-3) 7);
    mkLanguageColor "C"%string (mkLAB 20 0 0) ].

(** * Properties *)

(** ** HexToRGB *)

Section HexToRGB_facts.

Local Open Scope string_scope.

Lemma fromHexChar_lt16 (c : ascii) (a : N) :
  hex.fromHexChar c = Some a -> (a < 16)%N.
Proof.
  unfold hex.fromHexChar.
  repeat case_match; intros [= <-];
    repeat match goal with
    | H : (_ && _)%bool = true |- _ =>
        apply andb_true_iff in H; destruct H as [?%N.leb_le ?%N.leb_le]
    end; lia.
Qed.

(** The packed byte is [16 * a + b]. *)
Lemma pack_value (a b : N) :
  (a < 16)%N -> (b < 16)%N -> Byte.to_N (hex.pack a b) = (16 * a + b)%N.
Proof.
  intros Ha Hb.
  destruct a as [|p]; [|do 4 (try destruct p as [p|p|]); try lia];
    (destruct b as [|q]; [|do 4 (try destruct q as [q|q|]); try lia]);
    reflexivity.
Qed.

(** A string of length seven is a first character and six more. *)
Lemma length7_inv (s : string) :
  String.length s = 7%nat ->
  exists c h1 l1 h2 l2 h3 l3,
    s = String c (String h1 (String l1 (String h2 (String l2
          (String h3 (String l3 EmptyString)))))).
Proof.
  intros H.
  do 7 (destruct s as [|? s]; [discriminate H|]).
  destruct s; [|discriminate H].
  by repeat eexists.
Qed.

(** Decoding six characters: three bytes when all six are digits, an
    [InvalidByteError] naming the first that is not one otherwise. *)
Lemma Decode6 (h1 l1 h2 l2 h3 l3 : ascii) :
  let t := String h1 (String l1 (String h2 (String l2
             (String h3 (String l3 EmptyString))))) in
  (exists a1 b1 a2 b2 a3 b3,
      hex.fromHexChar h1 = Some a1 /\ hex.fromHexChar l1 = Some b1 /\
      hex.fromHexChar h2 = Some a2 /\ hex.fromHexChar l2 = Some b2 /\
      hex.fromHexChar h3 = Some a3 /\ hex.fromHexChar l3 = Some b3 /\
      hex.Decode t = ([hex.pack a1 b1; hex.pack a2 b2; hex.pack a3 b3], None))
  \/ (exists bs c, hex.fromHexChar c = None /\
        hex.Decode t = (bs, Some (hex.InvalidByteError c))).
Proof.
  cbn [hex.Decode].
  destruct (hex.fromHexChar h1) eqn:E1; [|right; eauto].
  destruct (hex.fromHexChar l1) eqn:E2; [|right; eauto].
  destruct (hex.fromHexChar h2) eqn:E3; [|right; eauto].
  destruct (hex.fromHexChar l2) eqn:E4; [|right; eauto].
  destruct (hex.fromHexChar h3) eqn:E5; [|right; eauto].
  destruct (hex.fromHexChar l3) eqn:E6; [|right; eauto].
  left. by repeat eexists.
Qed.

(** A wrong length is the format error, the zero colour with it. *)
Lemma HexToRGB_bad_length (s : string) :
  String.length s <> 7%nat ->
  HexToRGB s = (RGB_zero, Some (errorString "expected hex color of form: #RRGGBB")) /\
  kindOf (errorString "expected hex color of form: #RRGGBB") = InvalidFormat.
Proof.
  intros H. unfold HexToRGB.
  destruct (Nat.eqb_spec (String.length s) 7); [done|]. done.
Qed.

(** With seven characters the only error left is a character of the tail
    that is no hexadecimal digit: [len(b) != 3] cannot happen. *)
Lemma HexToRGB_length7 (s : string) :
  String.length s = 7%nat ->
  (exists rgb, HexToRGB s = (rgb, None)) \/
  (exists c, hex.fromHexChar c = None /\
     HexToRGB s = (RGB_zero, Some (hexError (hex.InvalidByteError c))) /\
     kindOf (hexError (hex.InvalidByteError c)) = InvalidHex).
Proof.
  intros H.
  destruct (length7_inv s H) as (c & h1 & l1 & h2 & l2 & h3 & l3 & ->).
  unfold HexToRGB, hex.DecodeString.
  change (negb _) with false. cbn [tail1]. cbv iota.
  destruct (Decode6 h1 l1 h2 l2 h3 l3)
    as [(a1 & b1 & a2 & b2 & a3 & b3 & _ & _ & _ & _ & _ & _ & ->)
       |(bs & c' & Hc & ->)].
  - left. eauto.
  - right. exists c'. done.
Qed.

(** What [HexToRGB] accepts: seven characters of which the last six
    decode; what the first one is does not matter. *)
Lemma HexToRGB_succeeds_iff (s : string) :
  snd (HexToRGB s) = None <->
  String.length s = 7%nat /\ snd (hex.Decode (tail1 s)) = None.
Proof.
  destruct (Nat.eq_dec (String.length s) 7%nat) as [H|H].
  - destruct (length7_inv s H) as (c & h1 & l1 & h2 & l2 & h3 & l3 & ->).
    unfold HexToRGB, hex.DecodeString.
    change (negb _) with false. cbn [tail1]. cbv iota.
    destruct (Decode6 h1 l1 h2 l2 h3 l3)
      as [(a1 & b1 & a2 & b2 & a3 & b3 & _ & _ & _ & _ & _ & _ & ->)
         |(bs & c' & Hc & ->)]; cbn [snd]; split; try done.
    by intros [_ ?].
  - destruct (HexToRGB_bad_length s H) as [-> _]. cbn [snd].
    split; [done|]. by intros [? _].
Qed.

End HexToRGB_facts.

Section HexToRGB_claims.

Local Open Scope string_scope.

(** On every path that returns an error the colour returned with it is
    the zero value. *)
Lemma HexToRGB_error_zero (s : string) (e : error) :
  snd (HexToRGB s) = Some e -> fst (HexToRGB s) = RGB_zero.
Proof.
  unfold HexToRGB.
  destruct (negb _); [done|].
  destruct (hex.DecodeString _) as [b [e'|]]; [done|].
  destruct b as [|b0 [|b1 [|b2 [|b3 b]]]]; done.
Qed.

(** C1, at the input the code mishandles: the error text of [HexToRGB]
    gives the expected form as [#RRGGBB], yet a string of seven
    characters that does not start with [#] is parsed like the one that
    does, its first character skipped unread. *)
Example HexToRGB_accepts_missing_hash :
  HexToRGB "0FF0000" = (mkRGB xff x00 x00, None) /\
  HexToRGB "0FF0000" = HexToRGB "#FF0000".
Proof. split; reflexivity. Qed.

(** C10: [HexToRGB] never looks at the first character: whatever [c] is,
    six hexadecimal digits after it parse to the three bytes they spell;
    and every failure returns the zero colour. *)
Theorem HexToRGB_ignores_first_char
  (c h1 l1 h2 l2 h3 l3 : ascii) (a1 b1 a2 b2 a3 b3 : N) :
  hex.fromHexChar h1 = Some a1 -> hex.fromHexChar l1 = Some b1 ->
  hex.fromHexChar h2 = Some a2 -> hex.fromHexChar l2 = Some b2 ->
  hex.fromHexChar h3 = Some a3 -> hex.fromHexChar l3 = Some b3 ->
  HexToRGB (String c (String h1 (String l1 (String h2 (String l2
              (String h3 (String l3 EmptyString)))))))
    = (mkRGB (hex.pack a1 b1) (hex.pack a2 b2) (hex.pack a3 b3), None)
  /\ Byte.to_N (hex.pack a1 b1) = (16 * a1 + b1)%N
  /\ Byte.to_N (hex.pack a2 b2) = (16 * a2 + b2)%N
  /\ Byte.to_N (hex.pack a3 b3) = (16 * a3 + b3)%N
  /\ (forall s e, snd (HexToRGB s) = Some e -> fst (HexToRGB s) = RGB_zero).
Proof.
  intros E1 E2 E3 E4 E5 E6.
  split; [|repeat split].
  - unfold HexToRGB, hex.DecodeString.
    change (negb _) with false. cbn [tail1 hex.Decode]. cbv iota.
    by rewrite E1, E2, E3, E4, E5, E6.
  - apply pack_value; eauto using fromHexChar_lt16.
  - apply pack_value; eauto using fromHexChar_lt16.
  - apply pack_value; eauto using fromHexChar_lt16.
  - apply HexToRGB_error_zero.
Qed.

Lemma HexToRGB_ignores_first_char_witness :
  HexToRGB "0FF0000"
    = (mkRGB (hex.pack 15 15) (hex.pack 0 0) (hex.pack 0 0), None)
  /\ Byte.to_N (hex.pack 15 15) = 255%N
  /\ Byte.to_N (hex.pack 0 0) = 0%N
  /\ Byte.to_N (hex.pack 0 0) = 0%N
  /\ (forall s e, snd (HexToRGB s) = Some e -> fst (HexToRGB s) = RGB_zero).
Proof.
  apply (HexToRGB_ignores_first_char "0" "F" "F" "0" "0" "0" "0"
           15 15 0 0 0 0); reflexivity.
Defined.

End HexToRGB_claims.

(** ** The colour-space conversions against their specification *)

(** Multiplication of binary64 numbers commutes. *)
Lemma float_mul_comm (x y : float) : x * y = y * x.
Proof.
  apply Prim2SF_inj. rewrite !FloatAxioms.mul_spec. unfold SF64mul.
  destruct (Prim2SF x) as [sx|sx| |sx mx ex], (Prim2SF y) as [sy|sy| |sy my ey];
    cbn [SFmul]; try reflexivity;
    rewrite (xorb_comm sx sy); try reflexivity.
  by rewrite (Pos.mul_comm mx my), (Z.add_comm ex ey).
Qed.

Section Conversion_spec.

Variable Pow : float -> float -> float.

(** C4: [RGBToXYZ] is a total function, and on every RGB value it is the
    conversion of the specification: channel over 255, inverse sRGB
    gamma, times 100, then the fixed matrix. *)
Theorem RGBToXYZ_matches_spec (c : RGB) :
  RGBToXYZ Pow c = rgbToXYZ_spec Pow c.
Proof.
  unfold RGBToXYZ, rgbToXYZ_spec, scaled_channel, srgb_inverse_gamma.
  cbv zeta.
  f_equal; repeat (f_equal; try apply float_mul_comm).
Qed.

(** C5: [XYZToLAB] is a total function, and on every XYZ value it is the
    conversion of the specification: each component over the reference
    white (93.369, 100, 98.636), the cube root above 0.008856 and the
    line [7.787 n + 16/116] below, then L, A and B. *)
Theorem XYZToLAB_matches_spec (c : XYZ) :
  XYZToLAB Pow c = xyzToLAB_spec Pow c.
Proof.
  unfold XYZToLAB, xyzToLAB_spec, lab_f, rX, rY, rZ.
  reflexivity.
Qed.

(** Black needs no power: it maps to the origin of XYZ. *)
Example RGBToXYZ_black :
  RGBToXYZ Pow (mkRGB x00 x00 x00) = mkXYZ 0 0 0.
Proof. reflexivity. Qed.

(** White, for a power function with [1 ^ 2.4 = 1]: the white point of
    sRGB, near (95.05, 100, 108.9). *)
Example RGBToXYZ_white :
  Pow 1 2.4 = 1 ->
  RGBToXYZ Pow (mkRGB xff xff xff)
  = mkXYZ 95.049999999999997 100 108.89999999999999.
Proof.
  intros H. unfold RGBToXYZ. cbv beta zeta. cbn [RGB_R RGB_G RGB_B].
  change (float64_of_uint8 xff / 255) with 1.
  change (0.04045 <? 1) with true. cbv iota.
  change ((1 + 0.055) / 1.055) with 1.
  rewrite H. reflexivity.
Qed.

End Conversion_spec.

(** ** CIE94Diff against its specification *)

(** C3: [CIE94Diff] is the CIE94 formula of the specification with unit
    weights: chroma from each colour, the clamp of the hue term at zero,
    [SC] and [SH] from the first colour's chroma only. *)
Theorem CIE94Diff_matches_spec (c1 c2 : LAB) :
  CIE94Diff c1 c2 = cie94_spec c1 c2.
Proof.
  unfold CIE94Diff, cie94_spec, cie94_SC, cie94_SH, chroma, sq, wL, wC, wH,
    kL, kC, kH.
  reflexivity.
Qed.

(** ** Rounding in the binary64 specification

    Facts about [SpecFloat]'s rounding that the properties of
    [CIE94Diff] rest on: rounding keeps the sign, never makes a NaN out
    of a number, and gives zero only below the underflow threshold. *)

Section Rounding_facts.

Local Open Scope Z_scope.

Lemma iter_pos_invariant {T} (P : T -> Prop) (f : T -> T) :
  (forall x, P x -> P (f x)) -> forall n x, P x -> P (SpecFloat.iter_pos f n x).
Proof.
  intros Hf. induction n as [n IH|n IH|]; intros x Hx; cbn; auto.
Qed.

Lemma shr_1_nonneg mrs : 0 <= shr_m mrs -> 0 <= shr_m (shr_1 mrs).
Proof.
  destruct mrs as [m r s]. cbn. intros H.
  destruct m as [|[p|p|]|p]; cbn; lia.
Qed.

Lemma shr_nonneg mrs e n : 0 <= shr_m mrs -> 0 <= shr_m (fst (shr mrs e n)).
Proof.
  intros H. destruct n as [|p|p]; cbn; auto.
  apply (iter_pos_invariant (fun x => 0 <= shr_m x)); auto using shr_1_nonneg.
Qed.

Lemma shr_m_of_loc m l : shr_m (shr_record_of_loc m l) = m.
Proof. destruct l as [|[]]; reflexivity. Qed.

Lemma shr_fexp_nonneg m e l :
  0 <= m -> 0 <= shr_m (fst (shr_fexp prec emax m e l)).
Proof.
  intros H. unfold shr_fexp. apply shr_nonneg. now rewrite shr_m_of_loc.
Qed.

Lemma round_nearest_even_nonneg m l : 0 <= m -> 0 <= round_nearest_even m l.
Proof.
  intros H. unfold round_nearest_even.
  destruct l as [|[]]; try destruct (Z.even m); lia.
Qed.

(** Rounding a non-negative mantissa keeps the sign and never gives NaN. *)
Lemma binary_round_aux_class s m e l :
  0 <= m -> SFclass s (binary_round_aux prec emax s m e l).
Proof.
  intros H. unfold binary_round_aux.
  pose proof (shr_fexp_nonneg m e l H) as H1.
  destruct (shr_fexp prec emax m e l) as [mrs' e'].
  cbn [fst] in H1.
  pose proof (shr_fexp_nonneg _ e' loc_Exact
                (round_nearest_even_nonneg _ (loc_of_shr_record mrs') H1)) as H2.
  destruct (shr_fexp prec emax _ e' loc_Exact) as [mrs'' e''].
  cbn [fst] in H2.
  destruct (shr_m mrs'') as [|p|p]; cbn; try reflexivity; try lia.
  destruct (_ <=? _); cbn; reflexivity.
Qed.

Lemma binary_round_class s m e : SFclass s (binary_round prec emax s m e).
Proof.
  unfold binary_round. destruct (shl_align _ _ _) as [mz ez].
  apply binary_round_aux_class. lia.
Qed.

Lemma binary_normalize_nonnan m e sz : binary_normalize prec emax m e sz <> S754_nan.
Proof.
  destruct m as [|p|p]; cbn; [discriminate| |].
  - pose proof (binary_round_class false p e) as H.
    destruct (binary_round _ _ _ _ _); cbn in H; congruence.
  - pose proof (binary_round_class true p e) as H.
    destruct (binary_round _ _ _ _ _); cbn in H; congruence.
Qed.

Lemma digits2_pos_bounds p :
  2 ^ (Zpos (digits2_pos p) - 1) <= Zpos p < 2 ^ Zpos (digits2_pos p).
Proof.
  induction p as [p IH|p IH|]; cbn [digits2_pos].
  - rewrite Pos2Z.inj_succ, Z.pow_succ_r by lia.
    replace (Z.succ (Zpos (digits2_pos p)) - 1) with
      (Z.succ (Zpos (digits2_pos p) - 1)) by lia.
    rewrite Z.pow_succ_r by lia. lia.
  - rewrite Pos2Z.inj_succ, Z.pow_succ_r by lia.
    replace (Z.succ (Zpos (digits2_pos p)) - 1) with
      (Z.succ (Zpos (digits2_pos p) - 1)) by lia.
    rewrite Z.pow_succ_r by lia. lia.
  - cbn. lia.
Qed.

Lemma digits2_pos_le p q :
  (p <= q)%positive -> (digits2_pos p <= digits2_pos q)%positive.
Proof.
  intros H.
  pose proof (digits2_pos_bounds p) as [Hp _].
  pose proof (digits2_pos_bounds q) as [_ Hq].
  assert (Hlt : 2 ^ (Zpos (digits2_pos p) - 1) < 2 ^ Zpos (digits2_pos q)) by lia.
  apply Z.pow_lt_mono_r_iff in Hlt; lia.
Qed.

Lemma digits2_pos_iter_xO m d :
  Zpos (digits2_pos (Pos.iter xO m d)) = Zpos (digits2_pos m) + Zpos d.
Proof.
  rewrite Pos2Nat.inj_iter.
  rewrite <- (positive_nat_Z d).
  induction (Pos.to_nat d) as [|k IH]; cbn [nat_rect digits2_pos].
  - lia.
  - rewrite Pos2Z.inj_succ, IH. lia.
Qed.

Lemma shl_align_digits m e e' :
  Zpos (digits2_pos (fst (shl_align m e e'))) + snd (shl_align m e e')
  = Zpos (digits2_pos m) + e.
Proof.
  unfold shl_align. destruct (e' - e) as [|d|d] eqn:E; cbn [fst snd]; try lia.
  rewrite digits2_pos_iter_xO. lia.
Qed.

Lemma shl_align_le m e e' : (m <= fst (shl_align m e e'))%positive.
Proof.
  unfold shl_align. destruct (e' - e) as [|d|d]; cbn [fst]; try lia.
  rewrite Pos2Nat.inj_iter.
  induction (Pos.to_nat d) as [|k IH]; cbn [nat_rect]; lia.
Qed.

Lemma iter_pos_nat {T} (f : T -> T) n x :
  SpecFloat.iter_pos f n x = Nat.iter (Pos.to_nat n) f x.
Proof.
  unfold Nat.iter. rewrite <- Pos2Nat.inj_iter.
  revert x. induction n as [n IH|n IH|]; intros x; cbn [SpecFloat.iter_pos Pos.iter].
  - now rewrite !IH, !Pos.iter_swap.
  - now rewrite !IH.
  - reflexivity.
Qed.

Lemma shr_1_div2 mrs : 0 <= shr_m mrs -> shr_m (shr_1 mrs) = shr_m mrs / 2.
Proof.
  destruct mrs as [m r s]. cbn. intros H.
  destruct m as [|[p|p|]|p]; cbn [shr_m]; try lia; try reflexivity.
  - apply Z.div_unique with (r := 1); lia.
  - apply Z.div_unique with (r := 0); lia.
Qed.

Lemma iter_shr_1_div k mrs :
  0 <= shr_m mrs ->
  0 <= shr_m (Nat.iter k shr_1 mrs) /\
  shr_m (Nat.iter k shr_1 mrs) = shr_m mrs / 2 ^ Z.of_nat k.
Proof.
  intros H. induction k as [|k [IH0 IH]].
  - cbn. split; [lia|]. now rewrite Z.div_1_r.
  - cbn [Nat.iter nat_rect]. split; [now apply shr_1_nonneg|].
    fold (Nat.iter k shr_1 mrs).
    rewrite shr_1_div2 by exact IH0. fold (Nat.iter k shr_1 mrs). rewrite IH.
    rewrite Nat2Z.inj_succ, Z.pow_succ_r by lia.
    rewrite Z.div_div by lia. f_equal. lia.
Qed.

(** Shifting right by fewer places than the mantissa has digits leaves a
    positive mantissa. *)
Lemma shr_positive mrs e n p :
  shr_m mrs = Zpos p -> n < Zpos (digits2_pos p) ->
  0 < shr_m (fst (shr mrs e n)).
Proof.
  intros Hm Hn. destruct n as [|d|d]; cbn [shr fst]; try lia.
  rewrite iter_pos_nat.
  destruct (iter_shr_1_div (Pos.to_nat d) mrs) as [_ ->]; [lia|].
  rewrite Hm, positive_nat_Z.
  apply Z.div_str_pos. split; [lia|].
  pose proof (digits2_pos_bounds p) as [Hp _].
  assert (2 ^ Zpos d <= 2 ^ (Zpos (digits2_pos p) - 1))
    by (apply Z.pow_le_mono_r; lia).
  lia.
Qed.

Lemma snd_shr mrs e n : snd (shr mrs e n) = if 0 <? n then e + n else e.
Proof. destruct n; reflexivity. Qed.

Lemma round_nearest_even_ge m l : m <= round_nearest_even m l.
Proof.
  unfold round_nearest_even. destruct l as [|[]]; try destruct (Z.even m); lia.
Qed.

(** Above the underflow threshold rounding never gives zero (nor NaN). *)
Lemma binary_round_aux_nonzero s m e l :
  emin < Zpos (digits2_pos m) + e ->
  match binary_round_aux prec emax s (Zpos m) e l with
  | S754_finite s' _ _ | S754_infinity s' => s' = s
  | _ => False
  end.
Proof.
  intros H. unfold binary_round_aux, shr_fexp.
  set (n := fexp prec emax (Zdigits2 (Zpos m) + e) - e).
  assert (Hn : n < Zpos (digits2_pos m)).
  { unfold n, fexp. cbn [Zdigits2]. unfold prec in *. lia. }
  pose proof (shr_positive (shr_record_of_loc (Zpos m) l) e n m
                (shr_m_of_loc _ _) Hn) as H1.
  pose proof (snd_shr (shr_record_of_loc (Zpos m) l) e n) as He.
  destruct (shr (shr_record_of_loc (Zpos m) l) e n) as [mrs' e'] eqn:E.
  cbn [fst snd] in H1, He.
  pose proof (round_nearest_even_ge (shr_m mrs') (loc_of_shr_record mrs')) as Hr.
  destruct (round_nearest_even (shr_m mrs') (loc_of_shr_record mrs'))
    as [|m''|m''] eqn:Em; try lia.
  set (n2 := fexp prec emax (Zdigits2 (Zpos m'') + e') - e').
  assert (Hn2 : n2 < Zpos (digits2_pos m'')).
  { unfold n2, fexp. cbn [Zdigits2]. unfold prec in *.
    destruct (Z.ltb_spec 0 n) as [Hpos|Hneg].
    - subst e'. unfold n, fexp. cbn [Zdigits2]. lia.
    - subst e'.
      assert (Hmm : shr_m mrs' = Zpos m).
      { unfold shr in E. destruct n; try lia; inversion E;
          now rewrite shr_m_of_loc. }
      rewrite Hmm in Hr.
      assert (digits2_pos m <= digits2_pos m'')%positive
        by (apply digits2_pos_le; lia).
      lia. }
  pose proof (shr_positive (shr_record_of_loc (Zpos m'') loc_Exact) e' n2 m''
                (shr_m_of_loc _ _) Hn2) as H2.
  destruct (shr (shr_record_of_loc (Zpos m'') loc_Exact) e' n2) as [mrs'' e''].
  cbn [fst] in H2.
  destruct (shr_m mrs'') as [|q|q]; try lia.
  destruct (_ <=? _); reflexivity.
Qed.

Lemma binary_round_nonzero s m e :
  emin < Zpos (digits2_pos m) + e ->
  match binary_round prec emax s m e with
  | S754_finite s' _ _ | S754_infinity s' => s' = s
  | _ => False
  end.
Proof.
  intros H. unfold binary_round.
  pose proof (shl_align_digits m e (fexp prec emax (Zpos (digits2_pos m) + e))) as Hd.
  destruct (shl_align m e _) as [mz ez]. cbn [fst snd] in Hd.
  apply binary_round_aux_nonzero. lia.
Qed.

(** A sum of two positive numbers, one of them above the underflow
    threshold, is positive: finite or infinite, never zero. *)
Lemma SFadd_pos_nonzero mx ex my ey :
  emin < Zpos (digits2_pos mx) + ex ->
  match SFadd prec emax (S754_finite false mx ex) (S754_finite false my ey) with
  | S754_finite s' _ _ | S754_infinity s' => s' = false
  | _ => False
  end.
Proof.
  intros H. cbn [SFadd cond_Zopp].
  set (ez := Z.min ex ey).
  pose proof (shl_align_digits mx ex ez) as Hd.
  pose proof (shl_align_le my ey ez) as Hy.
  set (a := fst (shl_align mx ex ez)) in *.
  set (b := fst (shl_align my ey ez)) in *.
  assert (Hs : snd (shl_align mx ex ez) = ez).
  { unfold shl_align, ez. destruct (Z.min ex ey - ex) eqn:E; cbn [snd]; lia. }
  rewrite Hs in Hd.
  change (Zpos a + Zpos b) with (Zpos (a + b)).
  cbn [binary_normalize].
  apply binary_round_nonzero.
  assert (digits2_pos a <= digits2_pos (a + b))%positive
    by (apply digits2_pos_le; lia).
  lia.
Qed.

Lemma Zdigits2_lt_pow (p : positive) (k : Z) :
  0 <= k -> Zpos p < 2 ^ k -> Zpos (digits2_pos p) <= k.
Proof.
  intros Hk Hp. pose proof (digits2_pos_bounds p) as [Hl _].
  assert (Hlt : 2 ^ (Zpos (digits2_pos p) - 1) < 2 ^ k) by lia.
  apply Z.pow_lt_mono_r_iff in Hlt; lia.
Qed.

(** Shifting right takes the shifted places off the digits. *)
Lemma shr_digits mrs e n p :
  shr_m mrs = Zpos p ->
  Zdigits2 (shr_m (fst (shr mrs e n))) + snd (shr mrs e n)
    <= Zpos (digits2_pos p) + e \/ shr_m (fst (shr mrs e n)) = 0.
Proof.
  intros Hm. destruct n as [|d|d]; cbn [shr fst snd].
  - left. rewrite Hm. cbn. lia.
  - rewrite iter_pos_nat.
    destruct (iter_shr_1_div (Pos.to_nat d) mrs) as [H0 ->]; [lia|].
    rewrite Hm, positive_nat_Z.
    pose proof (digits2_pos_bounds p) as [_ Hu].
    assert (Hge : 0 <= Z.pos p / 2 ^ Z.pos d) by (apply Z.div_pos; lia).
    destruct (Z.pos p / 2 ^ Z.pos d) as [|q|q] eqn:E; [right; done| |lia].
    left. cbn [Zdigits2].
    destruct (Z.le_gt_cases (Zpos (digits2_pos p)) (Zpos d)) as [Hle|Hgt].
    + assert (Z.pos p < 2 ^ Z.pos d).
      { eapply Z.lt_le_trans; [exact Hu|]. apply Z.pow_le_mono_r; lia. }
      rewrite Z.div_small in E by lia. discriminate.
    + assert (Hq : Z.pos q < 2 ^ (Zpos (digits2_pos p) - Zpos d)).
      { rewrite <- E. apply Z.div_lt_upper_bound; [lia|].
        rewrite <- Z.pow_add_r by lia.
        replace (Z.pos d + (Z.pos (digits2_pos p) - Z.pos d))
          with (Z.pos (digits2_pos p)) by lia. exact Hu. }
      apply Zdigits2_lt_pow in Hq; lia.
  - left. rewrite Hm. cbn. lia.
Qed.

Lemma shr_zero mrs e n :
  shr_m mrs = 0 -> shr_m (fst (shr mrs e n)) = 0.
Proof.
  intros Hm. destruct n as [|d|d]; cbn [shr fst]; try done.
  rewrite iter_pos_nat.
  destruct (iter_shr_1_div (Pos.to_nat d) mrs) as [_ ->]; [lia|].
  rewrite Hm. apply Z.div_0_l.
  apply Z.pow_nonzero; lia.
Qed.

Lemma round_nearest_even_le m l : round_nearest_even m l <= m + 1.
Proof.
  unfold round_nearest_even. destruct l as [|[]]; try destruct (Z.even m); lia.
Qed.

Lemma digits2_pos_succ_le (p q : positive) :
  Zpos q <= Zpos p + 1 -> Zpos (digits2_pos q) <= Zpos (digits2_pos p) + 1.
Proof.
  intros H. pose proof (digits2_pos_bounds p) as [_ Hu].
  apply Zdigits2_lt_pow; [lia|].
  rewrite Z.pow_add_r, Z.pow_1_r by lia. lia.
Qed.

(** Rounding a mantissa whose magnitude stays below [2 ^ K], with
    [K + 1 <= emax], does not overflow, and adds at most one to the
    magnitude. *)
Lemma binary_round_aux_bound s m e l K :
  Zpos (digits2_pos m) + e <= K -> e <= emax - prec ->
  emin <= K -> K + 1 <= emax ->
  match binary_round_aux prec emax s (Zpos m) e l with
  | S754_infinity _ | S754_nan => False
  | S754_finite _ m' e' => Zpos (digits2_pos m') + e' <= K + 1
  | S754_zero _ => True
  end.
Proof.
  intros HK He Hmin Hmax. unfold binary_round_aux, shr_fexp.
  set (n := fexp prec emax (Zdigits2 (Zpos m) + e) - e).
  pose proof (shr_digits (shr_record_of_loc (Zpos m) l) e n m
                (shr_m_of_loc _ _)) as Hd1.
  pose proof (shr_nonneg (shr_record_of_loc (Zpos m) l) e n) as Hn1.
  rewrite shr_m_of_loc in Hn1. specialize (Hn1 ltac:(lia)).
  pose proof (snd_shr (shr_record_of_loc (Zpos m) l) e n) as He1.
  destruct (shr (shr_record_of_loc (Zpos m) l) e n) as [mrs' e'].
  cbn [fst snd] in Hd1, Hn1, He1.
  assert (He' : e' <= emax - prec /\ e' <= K).
  { subst e'. destruct (0 <? n) eqn:E.
    - unfold n, fexp, SpecFloat.emin in *. cbn [Zdigits2] in *.
      unfold prec, emax in *. lia.
    - lia. }
  pose proof (round_nearest_even_le (shr_m mrs') (loc_of_shr_record mrs')) as Hr1.
  pose proof (round_nearest_even_nonneg (shr_m mrs') (loc_of_shr_record mrs') Hn1) as Hr0.
  destruct (round_nearest_even (shr_m mrs') (loc_of_shr_record mrs'))
    as [|p2|p2] eqn:Em; try lia.
  - pose proof (shr_zero (shr_record_of_loc 0 loc_Exact) e'
                  (fexp prec emax (Zdigits2 0 + e') - e') eq_refl) as Hz.
    destruct (shr _ _ _) as [mrs'' e'']. cbn [fst] in Hz. by rewrite Hz.
  - assert (Hp2 : Zpos (digits2_pos p2) + e' <= K + 1).
    { destruct (shr_m mrs') as [|p1|p1] eqn:E1; try lia.
      - assert (p2 = 1%positive) by lia. subst p2. cbn. lia.
      - destruct Hd1 as [Hd1|Hd1]; [|done]. cbn [Zdigits2] in Hd1.
        pose proof (digits2_pos_succ_le p1 p2 Hr1). lia. }
    set (n2 := fexp prec emax (Zdigits2 (Zpos p2) + e') - e').
    pose proof (shr_digits (shr_record_of_loc (Zpos p2) loc_Exact) e' n2 p2
                  (shr_m_of_loc _ _)) as Hd2.
    pose proof (shr_nonneg (shr_record_of_loc (Zpos p2) loc_Exact) e' n2) as Hn2.
    rewrite shr_m_of_loc in Hn2. specialize (Hn2 ltac:(lia)).
    pose proof (snd_shr (shr_record_of_loc (Zpos p2) loc_Exact) e' n2) as He2.
    destruct (shr (shr_record_of_loc (Zpos p2) loc_Exact) e' n2) as [mrs'' e''].
    cbn [fst snd] in Hd2, Hn2, He2.
    destruct (shr_m mrs'') as [|p3|p3] eqn:E3; try done; try lia.
    assert (He'' : e'' <= emax - prec).
    { subst e''. destruct (0 <? n2) eqn:E.
      - unfold n2, fexp, SpecFloat.emin in *. cbn [Zdigits2] in *.
        unfold prec, emax in *. lia.
      - lia. }
    apply Z.leb_le in He''. rewrite He''.
    destruct Hd2 as [Hd2|Hd2]; [|done]. cbn [Zdigits2] in Hd2. lia.
Qed.

Lemma digits2_pos_mul_le (p q : positive) :
  Zpos (digits2_pos (p * q)) <= Zpos (digits2_pos p) + Zpos (digits2_pos q).
Proof.
  pose proof (digits2_pos_bounds p) as [_ Hp].
  pose proof (digits2_pos_bounds q) as [_ Hq].
  apply Zdigits2_lt_pow; [lia|].
  rewrite Z.pow_add_r, Pos2Z.inj_mul by lia. nia.
Qed.

Lemma digits2_pos_add_le (p q : positive) (k : Z) :
  Zpos (digits2_pos p) <= k -> Zpos (digits2_pos q) <= k ->
  Zpos (digits2_pos (p + q)) <= k + 1.
Proof.
  intros Hpk Hqk.
  pose proof (digits2_pos_bounds p) as [_ Hp].
  pose proof (digits2_pos_bounds q) as [_ Hq].
  apply Zdigits2_lt_pow; [lia|].
  assert (2 ^ Zpos (digits2_pos p) <= 2 ^ k) by (apply Z.pow_le_mono_r; lia).
  assert (2 ^ Zpos (digits2_pos q) <= 2 ^ k) by (apply Z.pow_le_mono_r; lia).
  rewrite Z.pow_add_r, Z.pow_1_r, Pos2Z.inj_add by lia. lia.
Qed.

Lemma shl_align_exp_le m e e' : snd (shl_align m e e') <= e.
Proof.
  unfold shl_align. destruct (e' - e) as [|d|d] eqn:E; cbn [snd]; lia.
Qed.

(** A number in canonical form has at most [prec] digits. *)
Lemma bounded_magnitude m e :
  bounded prec emax m e = true ->
  Zpos (digits2_pos m) + e <= emax /\ e <= emax - prec.
Proof.
  unfold bounded, canonical_mantissa, fexp.
  intros [Hc He]%andb_true_iff.
  apply Z.eqb_eq in Hc. apply Z.leb_le in He.
  unfold prec, emax in *. lia.
Qed.

(** A product whose magnitudes add up to less than [emax] is finite. *)
Lemma SFmul_bound mk ek m e K :
  Zpos (digits2_pos mk) + ek + (Zpos (digits2_pos m) + e) <= K ->
  ek + e <= emax - prec -> emin <= K -> K + 1 <= emax ->
  match SFmul prec emax (S754_finite false mk ek) (S754_finite false m e) with
  | S754_infinity _ | S754_nan => False
  | S754_finite _ m' e' => Zpos (digits2_pos m') + e' <= K + 1
  | S754_zero _ => True
  end.
Proof.
  intros HK He Hmin Hmax. cbn [SFmul].
  apply binary_round_aux_bound; try done.
  pose proof (digits2_pos_mul_le mk m). lia.
Qed.

(** One plus a positive number of magnitude below [2 ^ (emax - 2)] is
    finite. *)
Lemma SFadd_one_bound mp ep :
  Zpos (digits2_pos mp) + ep <= emax - 3 ->
  match SFadd prec emax (S754_finite false 4503599627370496 (-52))
          (S754_finite false mp ep) with
  | S754_infinity _ | S754_nan => False
  | _ => True
  end.
Proof.
  intros Hp. cbn [SFadd cond_Zopp].
  set (ez := Z.min (-52) ep).
  pose proof (shl_align_digits 4503599627370496 (-52) ez) as Ha.
  pose proof (shl_align_digits mp ep ez) as Hb.
  assert (Hsa : snd (shl_align 4503599627370496 (-52) ez) = ez).
  { unfold shl_align, ez. destruct (Z.min (-52) ep - -52) eqn:E; cbn [snd]; lia. }
  assert (Hsb : snd (shl_align mp ep ez) = ez).
  { unfold shl_align, ez. destruct (Z.min (-52) ep - ep) eqn:E; cbn [snd]; lia. }
  rewrite Hsa in Ha. rewrite Hsb in Hb.
  set (a := fst (shl_align 4503599627370496 (-52) ez)) in *.
  set (b := fst (shl_align mp ep ez)) in *.
  change (Zpos a + Zpos b) with (Zpos (a + b)).
  cbn [binary_normalize]. unfold binary_round.
  pose proof (shl_align_digits (a + b) ez
                (fexp prec emax (Zpos (digits2_pos (a + b)) + ez))) as Hd.
  pose proof (shl_align_exp_le (a + b) ez
                (fexp prec emax (Zpos (digits2_pos (a + b)) + ez))) as Hle.
  destruct (shl_align (a + b) ez _) as [mz ez']. cbn [fst snd] in Hd, Hle.
  change (Zpos (digits2_pos 4503599627370496)) with 53 in Ha.
  pose proof (digits2_pos_add_le a b (emax - 3 - ez)
                ltac:(unfold emax; lia) ltac:(lia)) as Hab.
  pose proof (binary_round_aux_bound false mz ez' loc_Exact (emax - 2)
                ltac:(lia) ltac:(unfold ez, emax, prec in *; lia)
                ltac:(unfold SpecFloat.emin, emax, prec; lia)
                ltac:(unfold emax; lia)) as Hr.
  by destruct (binary_round_aux _ _ _ _ _ _).
Qed.

End Rounding_facts.

(** ** binary64 numbers through their specification *)

Section Float_facts.

Lemma SFclass_nonneg (x : spec_float) : SFclass false x -> SFnonneg x.
Proof. by destruct x. Qed.

Lemma SFcompare_refl_finite s m e :
  SFcompare (S754_finite s m e) (S754_finite s m e) = Some Eq.
Proof.
  unfold SFcompare.
  rewrite Z.compare_refl, Pos.compare_cont_refl. by destruct s.
Qed.

Lemma is_nan_SF (x : float) : is_nan x = true <-> Prim2SF x = S754_nan.
Proof.
  unfold is_nan. rewrite FloatAxioms.eqb_spec. unfold SFeqb.
  destruct (Prim2SF x) as [s|s| |s m e] eqn:E.
  - cbn. split; intros; discriminate.
  - destruct s; cbn; split; intros; discriminate.
  - cbn. done.
  - rewrite SFcompare_refl_finite. cbn. split; intros; discriminate.
Qed.

Lemma is_nan_false_SF (x : float) : is_nan x = false <-> nonNaN x.
Proof.
  unfold nonNaN. rewrite <- is_nan_SF. destruct (is_nan x); split; congruence.
Qed.

Lemma is_finite_SF (x : float) : is_finite x = true <-> SFfinite (Prim2SF x).
Proof.
  unfold is_finite, is_nan, is_infinity.
  rewrite !FloatAxioms.eqb_spec, FloatAxioms.abs_spec. unfold SFeqb.
  change (Prim2SF infinity) with (S754_infinity false).
  destruct (Prim2SF x) as [s|s| |s m e] eqn:E.
  - cbn. done.
  - destruct s; cbn; split; (discriminate || tauto).
  - cbn. split; (discriminate || tauto).
  - rewrite SFcompare_refl_finite. cbn. done.
Qed.

Lemma nonneg_nonNaN (x : float) : nonneg x -> nonNaN x.
Proof.
  unfold nonneg, nonNaN. by destruct (Prim2SF x).
Qed.

Lemma finite_nonNaN (x : float) : is_finite x = true -> nonNaN x.
Proof.
  rewrite is_finite_SF. unfold nonNaN. by destruct (Prim2SF x).
Qed.

(** [0 <= x] holds for every [x] that is zero, positive or plus
    infinity. *)
Lemma nonneg_leb (x : float) : nonneg x -> (0 <=? x) = true.
Proof.
  unfold nonneg. rewrite FloatAxioms.leb_spec.
  change (Prim2SF 0) with (S754_zero false).
  destruct (Prim2SF x) as [s|s| |s m e]; cbn; intros H; subst; done.
Qed.

(** What is greater than zero is positive. *)
Lemma ltb_zero_nonneg (x : float) : (0 <? x) = true -> nonneg x.
Proof.
  unfold nonneg. rewrite FloatAxioms.ltb_spec.
  change (Prim2SF 0) with (S754_zero false).
  destruct (Prim2SF x) as [s|s| |s m e]; cbn; try done; by destruct s.
Qed.

(** A square is never negative. *)
Lemma sq_nonneg (x : float) : nonNaN x -> nonneg (x * x).
Proof.
  unfold nonNaN, nonneg. rewrite FloatAxioms.mul_spec. unfold SF64mul.
  destruct (Prim2SF x) as [s|s| |s m e]; cbn [SFmul]; intros H.
  - done.
  - cbn. by destruct s.
  - done.
  - replace (xorb s s) with false by (by destruct s).
    apply SFclass_nonneg, binary_round_aux_class. lia.
Qed.

Lemma add_nonneg (x y : float) : nonneg x -> nonneg y -> nonneg (x + y).
Proof.
  unfold nonneg. rewrite FloatAxioms.add_spec. unfold SF64add.
  destruct (Prim2SF x) as [sx|sx| |sx mx ex],
           (Prim2SF y) as [sy|sy| |sy my ey];
    cbn [SFnonneg]; intros Hx Hy; try done; subst; cbn [SFadd]; try done.
  - by destruct sx, sy.
  - cbn [cond_Zopp].
    change (Z.pos ?a + Z.pos ?b)%Z with (Z.pos (a + b)).
    cbn [binary_normalize]. apply SFclass_nonneg, binary_round_class.
Qed.

Lemma SFsqrt_core_nonneg (m : positive) (e : Z) :
  (0 <= fst (fst (SFsqrt_core_binary prec emax (Z.pos m) e)))%Z.
Proof.
  unfold SFsqrt_core_binary.
  set (s := (e - 2 * _)%Z).
  set (m' := match s with Z.pos _ => Z.shiftl (Z.pos m) s | 0%Z => Z.pos m
             | Z.neg _ => 0%Z end).
  assert (Hm' : (0 <= m')%Z).
  { unfold m'. destruct s; try lia. apply Z.shiftl_nonneg. lia. }
  pose proof (Z.sqrtrem_spec m' Hm') as Hs.
  destruct (Z.sqrtrem m') as [q r]. cbn [fst]. lia.
Qed.

(** A square root is a zero, positive, plus infinity, or NaN. *)
Lemma SFsqrt_cases (x : spec_float) :
  SFsqrt prec emax x = S754_nan \/ SFnonneg (SFsqrt prec emax x).
Proof.
  destruct x as [s|s| |s m e]; cbn [SFsqrt].
  - right. done.
  - destruct s; [by left|by right].
  - by left.
  - destruct s; [by left|]. right.
    pose proof (SFsqrt_core_nonneg m e) as Hq.
    destruct (SFsqrt_core_binary prec emax (Z.pos m) e) as [[mz ez] lz].
    cbn [fst] in Hq.
    by apply SFclass_nonneg, binary_round_aux_class.
Qed.

Lemma sqrt_nonneg (x : float) : nonneg x -> nonneg (sqrt x).
Proof.
  unfold nonneg. rewrite FloatAxioms.sqrt_spec. unfold SF64sqrt.
  intros Hx. destruct (SFsqrt_cases (Prim2SF x)) as [E|H]; [|done].
  destruct (Prim2SF x) as [s|s| |s m e]; cbn [SFsqrt SFnonneg] in *;
    try done; subst; try done.
  pose proof (SFsqrt_core_nonneg m e) as Hq.
  destruct (SFsqrt_core_binary prec emax (Z.pos m) e) as [[mz ez] lz].
  cbn [fst] in Hq.
  pose proof (binary_round_aux_class false mz ez lz Hq) as Hc.
  rewrite E in Hc. done.
Qed.

(** The difference of two finite numbers is a number. *)
Lemma SFsub_finite_nonnan (x y : spec_float) :
  SFnonneg x \/ SFfinite x -> SFfinite y ->
  SFsub prec emax x y <> S754_nan.
Proof.
  destruct x as [sx|sx| |sx mx ex], y as [sy|sy| |sy my ey];
    cbn [SFfinite SFnonneg SFsub]; intros Hx Hy; try done;
    try (by destruct sx, sy); try tauto.
  apply binary_normalize_nonnan.
Qed.

Lemma sub_nonNaN (x y : float) :
  nonneg x \/ is_finite x = true -> is_finite y = true -> nonNaN (x - y).
Proof.
  rewrite !is_finite_SF. unfold nonneg, nonNaN.
  rewrite FloatAxioms.sub_spec. apply SFsub_finite_nonnan.
Qed.

Lemma SFdiv_core_nonneg (m1 m2 : positive) (e1 e2 : Z) :
  (0 <= fst (fst (SFdiv_core_binary prec emax (Z.pos m1) e1 (Z.pos m2) e2)))%Z.
Proof.
  unfold SFdiv_core_binary.
  set (s := (e1 - e2 - _)%Z).
  set (m' := match s with Z.pos _ => Z.shiftl (Z.pos m1) s | 0%Z => Z.pos m1
             | Z.neg _ => 0%Z end).
  assert (Hm' : (0 <= m')%Z).
  { unfold m'. destruct s; try lia. apply Z.shiftl_nonneg. lia. }
  pose proof (Z.div_pos m' (Z.pos m2) Hm' ltac:(lia)) as Hq.
  unfold Z.div in Hq.
  destruct (Z.div_eucl m' (Z.pos m2)) as [q r]. cbn [fst]. lia.
Qed.

(** A number divided by a finite number other than zero is a number,
    and keeps the sign the two signs give. *)
Lemma SFdiv_finite (x : spec_float) (s : bool) (m : positive) (e : Z) :
  x <> S754_nan ->
  SFdiv prec emax x (S754_finite s m e) <> S754_nan.
Proof.
  destruct x as [sx|sx| |sx mx ex]; cbn [SFdiv]; intros Hx; try done.
  pose proof (SFdiv_core_nonneg mx m ex e) as Hq.
  destruct (SFdiv_core_binary prec emax (Z.pos mx) ex (Z.pos m) e)
    as [[mz ez] lz].
  cbn [fst] in Hq.
  pose proof (binary_round_aux_class (xorb sx s) mz ez lz Hq) as Hc.
  by destruct (binary_round_aux _ _ _ _ _ _).
Qed.

(** Multiplying by one changes nothing: the product is exact. *)
Lemma SFmul_one (x : spec_float) :
  valid_binary x = true ->
  SFmul prec emax (S754_finite false 4503599627370496 (-52)) x = x.
Proof.
  destruct x as [s|s| |s m e]; cbn [SFmul xorb]; try done.
  cbn [SpecFloat.valid_binary]. unfold bounded, canonical_mantissa.
  intros [Hc He]%andb_true_iff.
  apply Z.eqb_eq in Hc. apply Z.leb_le in He.
  assert (Hm : (4503599627370496 * m)%positive = Pos.iter xO m 52)
    by reflexivity.
  unfold binary_round_aux, shr_fexp.
  cbn [Zdigits2]. rewrite Hm, digits2_pos_iter_xO.
  replace (Z.pos (digits2_pos m) + 52 + (-52 + e))%Z
    with (Z.pos (digits2_pos m) + e)%Z by lia.
  rewrite Hc.
  replace (e - (-52 + e))%Z with 52%Z by lia.
  cbn [shr_record_of_loc shr fst snd].
  change (SpecFloat.iter_pos shr_1 52
            {| shr_m := Z.pos (Pos.iter xO m 52); shr_r := false; shr_s := false |})
    with {| shr_m := Z.pos m; shr_r := false; shr_s := false |}.
  cbn [shr_m loc_of_shr_record round_nearest_even Zdigits2].
  replace (-52 + e + 52)%Z with e by lia.
  rewrite Hc, Z.sub_diag. cbn [shr shr_record_of_loc shr_m].
  apply Z.leb_le in He. by rewrite He.
Qed.

Lemma float_one_mul (x : float) : 1 * x = x.
Proof.
  apply Prim2SF_inj. rewrite FloatAxioms.mul_spec.
  change (Prim2SF 1) with (S754_finite false 4503599627370496 (-52)).
  apply SFmul_one, Prim2SF_valid.
Qed.

(** A finite number minus itself is plus zero. *)
Lemma float_sub_diag (x : float) : is_finite x = true -> x - x = 0.
Proof.
  rewrite is_finite_SF. intros Hx.
  apply Prim2SF_inj. rewrite FloatAxioms.sub_spec. unfold SF64sub.
  change (Prim2SF 0) with (S754_zero false).
  destruct (Prim2SF x) as [s|s| |s m e]; cbn [SFsub SFfinite] in *; try done.
  - by destruct s.
  - by rewrite Z.sub_diag.
Qed.

(** Zero over a positive number or plus infinity is plus zero. *)
Lemma float_zero_div (y : float) : SFpositive (Prim2SF y) -> 0 / y = 0.
Proof.
  intros Hy. apply Prim2SF_inj. rewrite FloatAxioms.div_spec. unfold SF64div.
  change (Prim2SF 0) with (S754_zero false).
  destruct (Prim2SF y) as [s|s| |s m e]; cbn [SFdiv SFpositive] in *;
    try done; by subst.
Qed.

(** If a sum is finite so are its terms, and likewise for a square and
    for a square root. *)
Lemma add_finite_inv (x y : float) :
  is_finite (x + y) = true -> is_finite x = true /\ is_finite y = true.
Proof.
  rewrite !is_finite_SF, FloatAxioms.add_spec. unfold SF64add.
  destruct (Prim2SF x) as [sx|sx| |sx mx ex],
           (Prim2SF y) as [sy|sy| |sy my ey];
    cbn [SFadd SFfinite]; try tauto; by destruct sx, sy.
Qed.

Lemma sq_finite_inv (x : float) :
  is_finite (x * x) = true -> is_finite x = true.
Proof.
  rewrite !is_finite_SF, FloatAxioms.mul_spec. unfold SF64mul.
  by destruct (Prim2SF x) as [sx|sx| |sx mx ex]; cbn [SFmul SFfinite].
Qed.

Lemma sqrt_finite_inv (x : float) :
  is_finite (sqrt x) = true -> is_finite x = true.
Proof.
  rewrite !is_finite_SF, FloatAxioms.sqrt_spec. unfold SF64sqrt.
  destruct (Prim2SF x) as [sx|sx| |sx mx ex]; cbn [SFsqrt SFfinite];
    try done; by destruct sx.
Qed.

(** The weights [1 + k * ch] of CIE94, for a positive constant [k] and a
    chroma [ch] that is not negative: positive, never zero. *)
Lemma weight_positive (k ch : float) (mk : positive) (ek : Z) :
  Prim2SF k = S754_finite false mk ek -> nonneg ch ->
  SFpositive (Prim2SF (1 + k * ch)).
Proof.
  unfold nonneg. intros Hk Hch.
  rewrite FloatAxioms.add_spec, FloatAxioms.mul_spec, Hk.
  unfold SF64add, SF64mul.
  change (Prim2SF 1) with (S754_finite false 4503599627370496 (-52)).
  destruct (Prim2SF ch) as [s|s| |s m e]; cbn [SFnonneg] in Hch;
    try done; subst; cbn [SFmul xorb].
  pose proof (binary_round_aux_class false (Z.pos (mk * m)) (ek + e)
                loc_Exact ltac:(lia)) as Hc.
  destruct (binary_round_aux prec emax false (Z.pos (mk * m)) (ek + e)
              loc_Exact) as [s'|s'| |s' m' e'] eqn:E;
    cbn [SFclass] in Hc; try done; subst s'.
  pose proof (SFadd_pos_nonzero 4503599627370496 (-52) m' e'
                ltac:(reflexivity)) as Hp.
  by destruct (SFadd _ _ _ _).
Qed.

(** The weights do not overflow: with [k] below [2 ^ -4] and a finite
    chroma, [1 + k * ch] is finite. *)
Lemma weight_finite (k ch : float) (mk : positive) (ek : Z) :
  Prim2SF k = S754_finite false mk ek ->
  (Z.pos (digits2_pos mk) + ek <= -4)%Z -> (ek <= 0)%Z ->
  is_finite ch = true -> nonneg ch -> is_finite (1 + k * ch) = true.
Proof.
  intros Hk Hmag Hek. rewrite !is_finite_SF. unfold nonneg.
  rewrite FloatAxioms.add_spec, FloatAxioms.mul_spec, Hk.
  unfold SF64add, SF64mul.
  change (Prim2SF 1) with (S754_finite false 4503599627370496 (-52)).
  pose proof (Prim2SF_valid ch) as Hv.
  destruct (Prim2SF ch) as [s|s| |s m e]; cbn [SFfinite SFnonneg]; try done.
  intros _ ->. cbn [SpecFloat.valid_binary] in Hv.
  apply bounded_magnitude in Hv as [Hm He].
  pose proof (SFmul_bound mk ek m e (emax - 4)
                ltac:(unfold emax in *; lia)
                ltac:(unfold emax, prec in *; lia)
                ltac:(unfold SpecFloat.emin, emax, prec; lia)
                ltac:(unfold emax; lia)) as Hb.
  pose proof (binary_round_aux_class false (Z.pos (mk * m)) (ek + e)
                loc_Exact ltac:(lia)) as Hc.
  cbn [SFmul xorb] in Hb |- *.
  destruct (binary_round_aux prec emax false (Z.pos (mk * m)) (ek + e)
              loc_Exact) as [s'|s'| |s' m' e'] eqn:E;
    cbn [SFclass] in Hc; try done; subst s'.
  pose proof (SFadd_one_bound m' e' ltac:(lia)) as Hadd.
  by destruct (SFadd _ _ _ _).
Qed.

Lemma div_nonNaN (x y : float) :
  nonNaN x -> SFpositive (Prim2SF y) -> is_finite y = true -> nonNaN (x / y).
Proof.
  rewrite is_finite_SF. unfold nonNaN.
  rewrite FloatAxioms.div_spec. unfold SF64div.
  destruct (Prim2SF y) as [s|s| |s m e]; cbn [SFpositive SFfinite]; try done.
  intros Hx _ _. by apply SFdiv_finite.
Qed.

End Float_facts.

(** ** CIE94Diff: identical colours, and the sign of the result *)

Lemma chroma_nonneg (c : LAB) :
  is_finite (LAB_A c) = true -> is_finite (LAB_B c) = true ->
  nonneg (chroma c).
Proof.
  intros HA HB. unfold chroma, sq.
  apply sqrt_nonneg, add_nonneg; apply sq_nonneg; by apply finite_nonNaN.
Qed.

Lemma chroma_finite_inv (c : LAB) :
  is_finite (chroma c) = true ->
  is_finite (LAB_A c) = true /\ is_finite (LAB_B c) = true.
Proof.
  unfold chroma, sq. intros H%sqrt_finite_inv.
  apply add_finite_inv in H as [HA HB].
  split; by apply sq_finite_inv.
Qed.

(** The two weights are positive numbers whenever the colour is finite. *)
Lemma cie94_SC_positive (c : LAB) :
  is_finite (LAB_A c) = true -> is_finite (LAB_B c) = true ->
  SFpositive (Prim2SF (cie94_SC c)).
Proof.
  intros HA HB. unfold cie94_SC.
  eapply weight_positive; [reflexivity|by apply chroma_nonneg].
Qed.

Lemma cie94_SH_positive (c : LAB) :
  is_finite (LAB_A c) = true -> is_finite (LAB_B c) = true ->
  SFpositive (Prim2SF (cie94_SH c)).
Proof.
  intros HA HB. unfold cie94_SH.
  eapply weight_positive; [reflexivity|by apply chroma_nonneg].
Qed.

(** C8, as the code has it: a colour with a finite lightness and a
    finite chroma is at distance exactly zero from itself. *)
Theorem CIE94Diff_same_colour_zero (c : LAB) :
  is_finite (LAB_L c) = true -> is_finite (chroma c) = true ->
  CIE94Diff c c = 0.
Proof.
  intros HL Hch.
  destruct (chroma_finite_inv c Hch) as [HA HB].
  pose proof (cie94_SC_positive c HA HB) as HSC.
  pose proof (cie94_SH_positive c HA HB) as HSH.
  change (CIE94Diff ?a ?b) with (cie94_spec a b). unfold cie94_spec. cbv zeta.
  rewrite (float_sub_diag _ HL), (float_sub_diag _ HA),
    (float_sub_diag _ HB), (float_sub_diag _ Hch).
  unfold kC, kH. rewrite !float_one_mul.
  rewrite (float_zero_div _ HSC).
  change (if 0 <? sq (sqrt (sq 0 + sq 0 + sq 0)) - sq 0 - sq 0
          then sqrt (sq (sqrt (sq 0 + sq 0 + sq 0)) - sq 0 - sq 0) else 0)
    with 0.
  rewrite (float_zero_div _ HSH).
  reflexivity.
Qed.

Lemma CIE94Diff_same_colour_zero_witness :
  CIE94Diff (mkLAB 50 10 20) (mkLAB 50 10 20) = 0.
Proof.
  apply (CIE94Diff_same_colour_zero (mkLAB 50 10 20)); reflexivity.
Defined.

(** C8 as stated fails: every component of this colour is finite, yet
    the square of [A] overflows, the chroma is infinite, and the
    distance of the colour to itself is NaN, which is not zero. *)
Lemma CIE94Diff_same_colour_overflow :
  LAB_finite (mkLAB 0 1e200 0) = true /\
  is_nan (CIE94Diff (mkLAB 0 1e200 0) (mkLAB 0 1e200 0)) = true /\
  (CIE94Diff (mkLAB 0 1e200 0) (mkLAB 0 1e200 0) =? 0) = false.
Proof. repeat split. Qed.

(** The two weights are finite whenever the chroma is. *)
Lemma cie94_weights_finite (c : LAB) :
  is_finite (chroma c) = true ->
  is_finite (cie94_SC c) = true /\ is_finite (cie94_SH c) = true.
Proof.
  intros Hch. destruct (chroma_finite_inv c Hch) as [HA HB].
  pose proof (chroma_nonneg c HA HB) as Hnn.
  unfold cie94_SC, cie94_SH.
  split; (eapply weight_finite; [reflexivity|done|done|done|done]).
Qed.

(** For finite colours, the first with a finite chroma, the distance is
    a zero, a positive number or plus infinity. *)
Lemma CIE94Diff_is_nonneg (c1 c2 : LAB) :
  LAB_finite c1 = true -> LAB_finite c2 = true ->
  is_finite (chroma c1) = true ->
  nonneg (CIE94Diff c1 c2).
Proof.
  unfold LAB_finite.
  intros [[HL1 HA1]%andb_true_iff HB1]%andb_true_iff
         [[HL2 HA2]%andb_true_iff HB2]%andb_true_iff Hch1.
  destruct (cie94_weights_finite c1 Hch1) as [HSC HSH].
  pose proof (cie94_SC_positive c1 HA1 HB1) as PSC.
  pose proof (cie94_SH_positive c1 HA1 HB1) as PSH.
  pose proof (chroma_nonneg c2 HA2 HB2) as Hch2.
  change (CIE94Diff ?a ?b) with (cie94_spec a b). unfold cie94_spec. cbv zeta.
  unfold kC, kH. rewrite !float_one_mul.
  apply sqrt_nonneg.
  repeat apply add_nonneg; apply sq_nonneg.
  - apply div_nonNaN; [|done|done].
    apply sub_nonNaN; [by right|done].
  - apply div_nonNaN; [|done|done].
    apply sub_nonNaN; [by left|done].
  - apply div_nonNaN; [|done|done].
    apply nonneg_nonNaN.
    destruct (0 <? _) eqn:E.
    + by apply sqrt_nonneg, ltb_zero_nonneg.
    + done.
Qed.

(** C9, as the code has it: for finite colours, when the chroma of the
    first has not overflowed, the distance is a number and is not
    negative. *)
Theorem CIE94Diff_nonneg (c1 c2 : LAB) :
  LAB_finite c1 = true -> LAB_finite c2 = true ->
  is_finite (chroma c1) = true ->
  (0 <=? CIE94Diff c1 c2) = true.
Proof.
  intros H1 H2 Hch. by apply nonneg_leb, CIE94Diff_is_nonneg.
Qed.

Lemma CIE94Diff_nonneg_witness :
  (0 <=? CIE94Diff (mkLAB 50 10 20) (mkLAB 55 (-3) 7)) = true.
Proof.
  apply (CIE94Diff_nonneg (mkLAB 50 10 20) (mkLAB 55 (-3) 7)); reflexivity.
Defined.

(** C9 as stated fails: both colours are finite, the first one's chroma
    overflows, and the result is NaN, which is not [>= 0]. *)
Lemma CIE94Diff_nan_on_finite_input :
  LAB_finite (mkLAB 50 1e200 0) = true /\
  LAB_finite (mkLAB 50 0 0) = true /\
  (0 <=? CIE94Diff (mkLAB 50 1e200 0) (mkLAB 50 0 0)) = false /\
  is_nan (CIE94Diff (mkLAB 50 1e200 0) (mkLAB 50 0 0)) = true.
Proof. repeat split. Qed.

(** X14: for every input whatsoever the result is never below zero: it
    is [>= 0] or it is NaN. *)
Lemma CIE94Diff_nonneg_or_nan (c1 c2 : LAB) :
  (0 <=? CIE94Diff c1 c2) = true \/ is_nan (CIE94Diff c1 c2) = true.
Proof.
  unfold CIE94Diff. cbv zeta.
  match goal with |- context [0 <=? sqrt ?v] => generalize v end.
  intros v. rewrite is_nan_SF.
  pose proof (SFsqrt_cases (Prim2SF v)) as [E|H].
  - right. by rewrite FloatAxioms.sqrt_spec.
  - left. apply nonneg_leb. unfold nonneg. by rewrite FloatAxioms.sqrt_spec.
Qed.

(** NaN goes through every operation. *)
Lemma nan_add_l (x y : float) : is_nan x = true -> is_nan (x + y) = true.
Proof.
  rewrite !is_nan_SF, FloatAxioms.add_spec. intros ->. done.
Qed.

Lemma nan_add_r (x y : float) : is_nan y = true -> is_nan (x + y) = true.
Proof.
  rewrite !is_nan_SF, FloatAxioms.add_spec. intros ->.
  unfold SF64add. by destruct (Prim2SF x).
Qed.

Lemma nan_sub_l (x y : float) : is_nan x = true -> is_nan (x - y) = true.
Proof.
  rewrite !is_nan_SF, FloatAxioms.sub_spec. intros ->. done.
Qed.

Lemma nan_sub_r (x y : float) : is_nan y = true -> is_nan (x - y) = true.
Proof.
  rewrite !is_nan_SF, FloatAxioms.sub_spec. intros ->.
  unfold SF64sub. by destruct (Prim2SF x).
Qed.

Lemma nan_sq (x : float) : is_nan x = true -> is_nan (x * x) = true.
Proof.
  rewrite !is_nan_SF, FloatAxioms.mul_spec. intros ->. done.
Qed.

Lemma nan_div_l (x y : float) : is_nan x = true -> is_nan (x / y) = true.
Proof.
  rewrite !is_nan_SF, FloatAxioms.div_spec. intros ->. done.
Qed.

Lemma nan_sqrt (x : float) : is_nan x = true -> is_nan (sqrt x) = true.
Proof.
  rewrite !is_nan_SF, FloatAxioms.sqrt_spec. intros ->. done.
Qed.

(** A colour whose chroma is no finite number, because it overflowed or
    is NaN, has no difference to any colour: [dC / (kC * SC)] is NaN, and
    so is the result. *)
Lemma CIE94Diff_chroma_overflow (c1 c2 : LAB) :
  is_finite (chroma c1) = false -> is_nan (CIE94Diff c1 c2) = true.
Proof.
  intros Hch.
  assert (HX : Prim2SF (chroma c1) = S754_nan \/
               Prim2SF (chroma c1) = S754_infinity false).
  { assert (Hnf : ~ SFfinite (Prim2SF (chroma c1))).
    { intros H%is_finite_SF. by rewrite H in Hch. }
    revert Hnf. unfold chroma. rewrite FloatAxioms.sqrt_spec.
    match goal with |- context [SF64sqrt ?v] =>
      pose proof (SFsqrt_cases v) as [E|Hn] end.
    - intros _. by left.
    - unfold SF64sqrt.
      destruct (SFsqrt prec emax _) as [s|s| |s m e]; cbn in Hn |- *;
        intros Hnf; try done; subst; by right. }
  change (CIE94Diff c1 c2) with (cie94_spec c1 c2). unfold cie94_spec.
  cbv zeta. apply nan_sqrt, nan_add_l, nan_add_r, nan_sq.
  apply is_nan_SF. unfold cie94_SC.
  rewrite FloatAxioms.div_spec, FloatAxioms.sub_spec, FloatAxioms.mul_spec,
    FloatAxioms.add_spec, FloatAxioms.mul_spec.
  generalize (Prim2SF (chroma c2)). intros y.
  destruct HX as [->| ->]; destruct y as [[]|[]| |[] m e]; reflexivity.
Qed.

(** NaN is less than nothing, and nothing is less than NaN. *)
Lemma float_ltb_nan (x y : float) :
  is_nan x = true \/ is_nan y = true -> (x <? y) = false.
Proof.
  rewrite !is_nan_SF, FloatAxioms.ltb_spec. unfold SFltb.
  intros [-> | ->]; [done|].
  by destruct (Prim2SF x) as [[]|[]| |[] m e].
Qed.

(** ** The order of binary64 numbers *)

Section Float_order.

Local Open Scope Z_scope.

Lemma SFcompare_key (x y : spec_float) :
  x <> S754_nan -> y <> S754_nan ->
  exists c, SFcompare x y = Some c /\
    (c = Lt <-> key_lt (SFkey x) (SFkey y)) /\
    (c = Gt <-> key_lt (SFkey y) (SFkey x)).
Proof.
  intros Hx Hy.
  destruct x as [sx|sx| |sx mx ex], y as [sy|sy| |sy my ey]; try done;
    try (destruct sx); try (destruct sy);
    cbn [SFcompare SFkey key_lt];
    try (eexists; split; [reflexivity|]; split; split;
         first [discriminate | lia | intros; first [reflexivity | lia]]).
  - change (Pos.compare_cont Eq mx my) with (mx ?= my)%positive.
    destruct (Z.compare_spec ex ey), (Pos.compare_spec mx my);
      cbn [CompOpp]; eexists; (split; [reflexivity|]);
      split; split;
      first [discriminate | lia | intros; first [reflexivity | lia]].
  - change (Pos.compare_cont Eq mx my) with (mx ?= my)%positive.
    destruct (Z.compare_spec ex ey), (Pos.compare_spec mx my);
      eexists; (split; [reflexivity|]);
      split; split;
      first [discriminate | lia | intros; first [reflexivity | lia]].
Qed.

Lemma ltb_key (x y : float) :
  nonNaN x -> nonNaN y ->
  ((x <? y)%float = true <-> key_lt (float_key x) (float_key y)).
Proof.
  unfold nonNaN, float_key. intros Hx Hy.
  rewrite FloatAxioms.ltb_spec. unfold SFltb.
  destruct (SFcompare_key _ _ Hx Hy) as (c & -> & HLt & HGt).
  rewrite <- HLt. destruct c; split; congruence.
Qed.

Lemma leb_key (x y : float) :
  nonNaN x -> nonNaN y ->
  ((x <=? y)%float = true <-> ~ key_lt (float_key y) (float_key x)).
Proof.
  unfold nonNaN, float_key. intros Hx Hy.
  rewrite FloatAxioms.leb_spec. unfold SFleb.
  destruct (SFcompare_key _ _ Hx Hy) as (c & -> & HLt & HGt).
  rewrite <- HGt. destruct c; split; congruence.
Qed.

Lemma ltb_true_nonNaN (x y : float) :
  (x <? y)%float = true -> nonNaN x /\ nonNaN y.
Proof.
  rewrite FloatAxioms.ltb_spec. unfold nonNaN, SFltb.
  destruct (Prim2SF x), (Prim2SF y); cbn [SFcompare]; done.
Qed.

Lemma key_lt_irrefl (a : Z * Z * Z) : ~ key_lt a a.
Proof. destruct a as [[a1 a2] a3]. cbn. lia. Qed.

Lemma key_lt_trans (a b c : Z * Z * Z) :
  key_lt a b -> key_lt b c -> key_lt a c.
Proof.
  destruct a as [[a1 a2] a3], b as [[b1 b2] b3], c as [[c1 c2] c3].
  cbn. lia.
Qed.

Lemma key_lt_neg_trans (a b c : Z * Z * Z) :
  ~ key_lt a b -> ~ key_lt b c -> ~ key_lt a c.
Proof.
  destruct a as [[a1 a2] a3], b as [[b1 b2] b3], c as [[c1 c2] c3].
  cbn. lia.
Qed.

(** [<] on binary64 numbers is irreflexive and transitive; among
    numbers that are not NaN its complement is transitive too, and is
    [>=]. *)
Lemma float_ltb_irrefl (x : float) : (x <? x)%float = false.
Proof.
  destruct (x <? x)%float eqn:E; [|done].
  destruct (ltb_true_nonNaN _ _ E) as [Hx _].
  apply ltb_key in E; [|done|done]. by apply key_lt_irrefl in E.
Qed.

Lemma float_ltb_trans (x y z : float) :
  (x <? y)%float = true -> (y <? z)%float = true -> (x <? z)%float = true.
Proof.
  intros Hxy Hyz.
  destruct (ltb_true_nonNaN _ _ Hxy) as [Hx Hy].
  destruct (ltb_true_nonNaN _ _ Hyz) as [_ Hz].
  apply ltb_key in Hxy, Hyz; try done.
  apply ltb_key; try done. by eapply key_lt_trans.
Qed.

Lemma float_ltb_neg_trans (x y z : float) :
  nonNaN x -> nonNaN y -> nonNaN z ->
  (x <? y)%float = false -> (y <? z)%float = false -> (x <? z)%float = false.
Proof.
  intros Hx Hy Hz Hxy Hyz.
  apply not_true_iff_false. apply not_true_iff_false in Hxy, Hyz.
  rewrite ltb_key in * by done. by eapply key_lt_neg_trans.
Qed.

Lemma float_nlt_leb (x y : float) :
  nonNaN x -> nonNaN y -> (y <? x)%float = false -> (x <=? y)%float = true.
Proof.
  intros Hx Hy H. apply not_true_iff_false in H.
  rewrite ltb_key in H by done. by apply leb_key.
Qed.

Lemma float_nleb_ltb (x y : float) :
  nonNaN x -> nonNaN y -> (y <=? x)%float = false -> (x <? y)%float = true.
Proof.
  intros Hx Hy H. apply not_true_iff_false in H.
  rewrite leb_key in H by done. apply ltb_key; try done.
  destruct (float_key x) as [[a1 a2] a3], (float_key y) as [[b1 b2] b3].
  cbn in *. lia.
Qed.

Lemma float_leb_trans (x y z : float) :
  nonNaN x -> nonNaN y -> nonNaN z ->
  (x <=? y)%float = true -> (y <=? z)%float = true -> (x <=? z)%float = true.
Proof.
  intros Hx Hy Hz Hxy Hyz.
  rewrite leb_key in * by done. by eapply key_lt_neg_trans.
Qed.

End Float_order.

(** ** Sorting with a [less] function *)

Section InsertionSort.

Context {T : Type} (less : T -> T -> bool).

Lemma insertBack_perm (x : T) (rp : list T) :
  insertBack less x rp ≡ₚ x :: rp.
Proof.
  induction rp as [|y rp IH]; cbn [insertBack]; [done|].
  destruct (less x y); [|done].
  rewrite IH. apply Permutation_swap.
Qed.

Lemma insertionSort_perm (data : list T) : insertionSort data less ≡ₚ data.
Proof.
  unfold insertionSort.
  assert (H : forall l acc,
    fold_left (fun rp x => insertBack less x rp) l acc ≡ₚ rev l ++ acc).
  { induction l as [|x l IH]; intros acc; cbn [fold_left rev]; [done|].
    by rewrite IH, insertBack_perm, <- app_assoc. }
  rewrite H, app_nil_r, rev_involutive. done.
Qed.

Lemma StrictWeakOn_perm (l1 l2 : list T) :
  l1 ≡ₚ l2 -> StrictWeakOn less l1 -> StrictWeakOn less l2.
Proof.
  intros Hp (H1 & H2 & H3). unfold StrictWeakOn.
  setoid_rewrite <- Hp. done.
Qed.

Lemma StrictWeakOn_sub (l1 l2 : list T) :
  l1 ⊆ l2 -> StrictWeakOn less l2 -> StrictWeakOn less l1.
Proof.
  intros Hs (H1 & H2 & H3). repeat split; intros; eauto.
Qed.

Lemma StrictWeakOn_asym (l : list T) (x y : T) :
  StrictWeakOn less l -> x ∈ l -> y ∈ l ->
  less x y = true -> less y x = false.
Proof.
  intros (H1 & H2 & _) Hx Hy Hxy.
  destruct (less y x) eqn:E; [|done].
  by rewrite <- (H1 x Hx), (H2 x y x Hx Hy Hx Hxy E).
Qed.

(** The sorted prefix is kept back to front: its head is the greatest. *)
Lemma insertBack_sorted (x : T) (rp : list T) :
  StrictWeakOn less (x :: rp) ->
  StronglySorted (fun a b => less a b = false) rp ->
  StronglySorted (fun a b => less a b = false) (insertBack less x rp).
Proof.
  intros HW. induction rp as [|y rp IH]; intros Hs; cbn [insertBack].
  - repeat constructor.
  - apply StronglySorted_cons in Hs as [Hy Hs].
    destruct (less x y) eqn:E.
    + apply StronglySorted_cons. split.
      * rewrite insertBack_perm. constructor; [|done].
        apply (StrictWeakOn_asym (x :: y :: rp) x y HW);
          [by left|by right; left|done].
      * apply IH; [|done].
        eapply StrictWeakOn_sub; [|exact HW].
        intros z [->|Hz]%elem_of_cons; [by left|by do 2 right].
    + apply StronglySorted_cons. split.
      * constructor; [done|].
        rewrite Forall_forall in Hy |- *. intros z Hz.
        destruct HW as (_ & _ & H3).
        apply (H3 x y z);
          [by left|by right; left|by do 2 right|done|by apply Hy].
      * by apply StronglySorted_cons.
Qed.

Lemma StronglySorted_rev (R : T -> T -> Prop) (l : list T) :
  StronglySorted R l -> StronglySorted (fun a b => R b a) (rev l).
Proof.
  induction 1 as [|x l Hs IH Hx]; cbn [rev]; [constructor|].
  apply StronglySorted_app. split_and!; [|done|repeat constructor].
  intros a b Ha%list_elem_of_In%in_rev%list_elem_of_In Hb.
  apply list_elem_of_singleton in Hb as ->.
  rewrite Forall_forall in Hx. by apply Hx.
Qed.

Lemma insertionSort_sorted (data : list T) :
  StrictWeakOn less data -> SortedBy less (insertionSort data less).
Proof.
  intros HW. unfold SortedBy, insertionSort.
  apply (StronglySorted_rev (fun a b => less a b = false)).
  assert (H : forall l acc,
    StrictWeakOn less (l ++ acc) ->
    StronglySorted (fun a b => less a b = false) acc ->
    StronglySorted (fun a b => less a b = false)
      (fold_left (fun rp x => insertBack less x rp) l acc)).
  { induction l as [|x l IH]; intros acc HWa Hs; cbn [fold_left]; [done|].
    apply IH.
    - eapply StrictWeakOn_perm; [|exact HWa].
      cbn. rewrite insertBack_perm. by rewrite Permutation_middle.
    - apply insertBack_sorted; [|done].
      eapply StrictWeakOn_sub; [|exact HWa].
      intros z [->|Hz]%elem_of_cons; [by left|].
      right. apply elem_of_app. by right. }
  apply H; [by rewrite app_nil_r|constructor].
Qed.

End InsertionSort.

(** ** The loops of [main] as list functions *)

Lemma main_diffs_spec (lang : LanguageColor) (tfc : list LanguageColor) :
  main_diffs lang tfc
  = diffEntry lang <$>
      filter (fun o => LanguageColor_Name o <> LanguageColor_Name lang) tfc.
Proof.
  unfold main_diffs.
  enough (H : forall acc,
    fold_left
      (fun diffs compLang =>
         if String.eqb (LanguageColor_Name lang) (LanguageColor_Name compLang)
         then diffs
         else diffs ++ [mkLanguageColorDiff (LanguageColor_Name compLang)
                          (CIE94Diff (LanguageColor_Color lang)
                                     (LanguageColor_Color compLang))])
      tfc acc
    = acc ++ (diffEntry lang <$>
        filter (fun o => LanguageColor_Name o <> LanguageColor_Name lang) tfc))
    by apply (H []).
  induction tfc as [|o tfc IH]; intros acc; cbn [fold_left].
  - by rewrite app_nil_r.
  - rewrite IH, filter_cons.
    destruct (String.eqb_spec (LanguageColor_Name lang) (LanguageColor_Name o))
      as [E|E].
    + by rewrite decide_False by (by intros ?; congruence).
    + rewrite decide_True by congruence.
      rewrite <- app_assoc. done.
Qed.

Lemma main_tfc_spec (Pow : float -> float -> float)
  (kvs : list (string * Language)) :
  main_tfc Pow kvs
  = (fun kv => mkLanguageColor kv.1 (labOf Pow kv.2)) <$>
      filter (fun kv => parses kv.2 = true) kvs.
Proof.
  unfold main_tfc.
  enough (H : forall acc,
    fold_left
      (fun tfc '(lang, data) =>
         let '(rgb, err) := HexToRGB (Language_Color data) in
         match err with
         | Some _ => tfc
         | None =>
             let c := mkLanguageColor lang (XYZToLAB Pow (RGBToXYZ Pow rgb)) in
             tfc ++ [c]
         end)
      kvs acc
    = acc ++ ((fun kv => mkLanguageColor kv.1 (labOf Pow kv.2)) <$>
        filter (fun kv => parses kv.2 = true) kvs))
    by apply (H []).
  induction kvs as [|[lang data] kvs IH]; intros acc; cbn [fold_left].
  - by rewrite app_nil_r.
  - rewrite IH, filter_cons. clear IH.
    destruct (HexToRGB (Language_Color data)) as [rgb [e|]] eqn:E.
    + by rewrite decide_False by (unfold parses; cbn; by rewrite E).
    + rewrite decide_True by (unfold parses; cbn; by rewrite E).
      rewrite fmap_cons, <- app_assoc. unfold labOf. cbn. by rewrite E.
Qed.

(** A map filled by a loop of assignments, one per element, the keys
    all different. *)
Lemma fold_insert_lookup {S V} (key : S -> string) (g : S -> V)
  (l : list S) (m0 : gmap string V) (x : S) :
  NoDup (key <$> l) -> x ∈ l ->
  fold_left (fun m y => <[key y := g y]> m) l m0 !! key x = Some (g x).
Proof.
  revert m0. induction l as [|y l IH]; intros m0 Hnd Hx; [by inversion Hx|].
  cbn [fold_left]. rewrite fmap_cons in Hnd.
  apply NoDup_cons in Hnd as [Hy Hnd].
  apply elem_of_cons in Hx as [->|Hx]; [|by apply IH].
  clear IH. revert m0. induction l as [|z l IH]; intros m0; cbn [fold_left].
  - by rewrite lookup_insert_eq.
  - rewrite fmap_cons in Hy, Hnd. apply not_elem_of_cons in Hy as [Hyz Hy].
    apply NoDup_cons in Hnd as [_ Hnd].
    rewrite insert_insert_ne by done. by apply IH.
Qed.

Lemma fold_insert_lookup_None {S V} (key : S -> string) (g : S -> V)
  (l : list S) (m0 : gmap string V) (k : string) :
  k ∉ key <$> l ->
  fold_left (fun m y => <[key y := g y]> m) l m0 !! k = m0 !! k.
Proof.
  revert m0. induction l as [|y l IH]; intros m0 Hk; [done|].
  cbn [fold_left]. rewrite fmap_cons in Hk.
  apply not_elem_of_cons in Hk as [Hky Hk].
  rewrite IH by done. by rewrite lookup_insert_ne.
Qed.

(** ** The threshold loop and the rendering loop *)

Lemma main_filtered_split (diffs : list LanguageColorDiff) (t : float) :
  exists rest,
    diffs = main_filtered diffs t ++ rest /\
    Forall (fun d => (t <=? LanguageColorDiff_Diff d) = false)
      (main_filtered diffs t) /\
    match rest with
    | [] => True
    | d :: _ => (t <=? LanguageColorDiff_Diff d) = true
    end.
Proof.
  induction diffs as [|d diffs (rest & Hd & Hall & Hrest)]; cbn [main_filtered].
  - by exists [].
  - destruct (t <=? LanguageColorDiff_Diff d) eqn:E.
    + exists (d :: diffs). by split_and!.
    + exists rest. split_and!; [by rewrite <- app_comm_cons, <- Hd| |done].
      by constructor.
Qed.

Lemma main_render_spec (tfcd : gmap string (list LanguageColorDiff))
  (langs : list string) (t : float) :
  main_render tfcd langs t
  = (fun lang => (lang, main_filtered (default [] (tfcd !! lang)) t)) <$>
      filter (fun lang => main_filtered (default [] (tfcd !! lang)) t <> [])
        langs.
Proof.
  unfold main_render.
  enough (H : forall acc,
    fold_left
      (fun out lang =>
         let filtered := main_filtered (default [] (tfcd !! lang)) t in
         if Nat.eqb (List.length filtered) 0 then out
         else out ++ [(lang, filtered)])
      langs acc
    = acc ++ ((fun lang => (lang, main_filtered (default [] (tfcd !! lang)) t))
        <$> filter
              (fun lang => main_filtered (default [] (tfcd !! lang)) t <> [])
              langs))
    by apply (H []).
  induction langs as [|lang langs IH]; intros acc; cbn [fold_left].
  - by rewrite app_nil_r.
  - rewrite IH, filter_cons. cbv zeta.
    destruct (main_filtered (default [] (tfcd !! lang)) t) as [|d f] eqn:E.
    + by rewrite decide_False by (by intros ?).
    + rewrite decide_True by done. cbn [List.length Nat.eqb].
      by rewrite fmap_cons, <- app_assoc, E.
Qed.

Lemma main_filtered_sub (diffs : list LanguageColorDiff) (t : float)
  (d : LanguageColorDiff) :
  d ∈ main_filtered diffs t -> d ∈ diffs.
Proof.
  destruct (main_filtered_split diffs t) as (rest & Hd & _).
  intros Hin. rewrite Hd. apply elem_of_app. by left.
Qed.

(** ** The difference lists *)

Lemma lessDiff_StrictWeakOn (l : list LanguageColorDiff) :
  noNaN l -> StrictWeakOn lessDiff l.
Proof.
  unfold noNaN. rewrite Forall_forall.
  setoid_rewrite is_nan_false_SF. intros H.
  unfold lessDiff. split_and!.
  - intros x _. apply float_ltb_irrefl.
  - intros x y z _ _ _. apply float_ltb_trans.
  - intros x y z Hx Hy Hz. apply float_ltb_neg_trans; auto.
Qed.

Lemma SortedBy_lessDiff_ascending (l : list LanguageColorDiff) :
  noNaN l -> SortedBy lessDiff l -> ascending l.
Proof.
  unfold noNaN, SortedBy, ascending, lessDiff.
  induction l as [|d l IH]; intros Hn Hs; [constructor|].
  apply Forall_cons in Hn as [Hd Hn].
  apply StronglySorted_cons in Hs as [Hdl Hs].
  apply StronglySorted_cons. split; [|by apply IH].
  rewrite Forall_forall in Hn, Hdl |- *. intros x Hx.
  apply float_nlt_leb;
    [by apply is_nan_false_SF|apply is_nan_false_SF; by apply Hn|by apply Hdl].
Qed.

(** A list of NaN differences is sorted by [lessDiff] as it stands. *)
Lemma SortedBy_lessDiff_nan (l : list LanguageColorDiff) :
  Forall (fun d => is_nan (LanguageColorDiff_Diff d) = true) l ->
  SortedBy lessDiff l.
Proof.
  unfold SortedBy, lessDiff.
  induction 1 as [|d l Hd Hl IH]; constructor; [done|].
  apply Forall_forall. intros x _. apply float_ltb_nan. by right.
Qed.

Section Ranking.

Variable Pow : float -> float -> float.

Variable sort_Slice :
  list LanguageColorDiff -> (LanguageColorDiff -> LanguageColorDiff -> bool) ->
  list LanguageColorDiff.

(** What package sort promises of [sort.Slice]: the slice is permuted,
    and is sorted by [less] when [less] is a transitive ordering. *)
Hypothesis sort_Slice_perm : forall l less, sort_Slice l less ≡ₚ l.

Hypothesis sort_Slice_sorted :
  forall l less, StrictWeakOn less l -> SortedBy less (sort_Slice l less).

Lemma main_tfcd_lookup (tfc : list LanguageColor) (lang : LanguageColor) :
  NoDup (LanguageColor_Name <$> tfc) -> lang ∈ tfc ->
  main_tfcd sort_Slice tfc !! LanguageColor_Name lang
  = Some (sort_Slice (main_diffs lang tfc) lessDiff).
Proof.
  intros Hnd Hin. unfold main_tfcd.
  by apply (fold_insert_lookup LanguageColor_Name
              (fun lang => sort_Slice (main_diffs lang tfc) lessDiff)).
Qed.

Lemma main_tfcd_lookup_None (tfc : list LanguageColor) (name : string) :
  name ∉ LanguageColor_Name <$> tfc ->
  main_tfcd sort_Slice tfc !! name = None.
Proof.
  intros Hn. unfold main_tfcd.
  by rewrite (fold_insert_lookup_None LanguageColor_Name
                (fun lang => sort_Slice (main_diffs lang tfc) lessDiff)).
Qed.

Lemma main_diffs_names (tfc : list LanguageColor) (lang : LanguageColor) :
  LanguageColorDiff_Name <$> main_diffs lang tfc
  = filter (fun n => n <> LanguageColor_Name lang) (LanguageColor_Name <$> tfc).
Proof.
  rewrite main_diffs_spec, <- list_fmap_compose.
  induction tfc as [|o tfc IH]; [done|].
  rewrite fmap_cons, !filter_cons. cbn beta.
  destruct (decide (LanguageColor_Name o <> LanguageColor_Name lang));
    [rewrite fmap_cons|]; by rewrite IH.
Qed.

(** C6: in a table of uniquely named colours the list of a name has
    exactly one entry for each other name, carrying [CIE94Diff] of the
    name's colour against the other's; and when the colours are finite
    numbers the list is sorted ascending by [Diff]: no entry is less
    than one that stands before it.  Either the chroma of the name's own
    colour is finite, then no difference is NaN and every entry is [<=]
    all that follow it; or it has overflowed, then all the differences
    are NaN. *)
Theorem main_tfcd_ranks (tfc : list LanguageColor) (lang : LanguageColor) :
  NoDup (LanguageColor_Name <$> tfc) -> lang ∈ tfc ->
  exists diffs,
    main_tfcd sort_Slice tfc !! LanguageColor_Name lang = Some diffs /\
    diffs ≡ₚ diffEntry lang <$>
      filter (fun o => LanguageColor_Name o <> LanguageColor_Name lang) tfc /\
    NoDup (LanguageColorDiff_Name <$> diffs) /\
    (noNaN diffs -> ascending diffs) /\
    (is_finite (chroma (LanguageColor_Color lang)) = false ->
     Forall (fun d => is_nan (LanguageColorDiff_Diff d) = true) diffs) /\
    (Forall (fun o => LAB_finite (LanguageColor_Color o) = true) tfc ->
     SortedBy lessDiff diffs /\
     (is_finite (chroma (LanguageColor_Color lang)) = true ->
      noNaN diffs /\ ascending diffs)).
Proof.
  intros Hnd Hin. eexists. split; [by apply main_tfcd_lookup|].
  assert (Hasc : noNaN (sort_Slice (main_diffs lang tfc) lessDiff) ->
                 SortedBy lessDiff (sort_Slice (main_diffs lang tfc) lessDiff)).
  { intros Hn. apply sort_Slice_sorted, lessDiff_StrictWeakOn.
    unfold noNaN in *. by rewrite <- (sort_Slice_perm _ lessDiff). }
  assert (Hnan : is_finite (chroma (LanguageColor_Color lang)) = false ->
                 Forall (fun d => is_nan (LanguageColorDiff_Diff d) = true)
                   (sort_Slice (main_diffs lang tfc) lessDiff)).
  { intros Hch. rewrite sort_Slice_perm, main_diffs_spec, Forall_fmap.
    apply Forall_forall. intros o _. cbn.
    by apply CIE94Diff_chroma_overflow. }
  assert (Hfin : Forall (fun o => LAB_finite (LanguageColor_Color o) = true)
                   tfc ->
                 is_finite (chroma (LanguageColor_Color lang)) = true ->
                 noNaN (sort_Slice (main_diffs lang tfc) lessDiff)).
  { intros Hfin Hch. unfold noNaN.
    rewrite sort_Slice_perm, main_diffs_spec, Forall_fmap.
    rewrite Forall_forall in Hfin |- *.
    intros o [_ Ho]%list_elem_of_filter. cbn.
    apply is_nan_false_SF, nonneg_nonNaN, CIE94Diff_is_nonneg; auto. }
  split_and!.
  - by rewrite sort_Slice_perm, main_diffs_spec.
  - rewrite sort_Slice_perm, main_diffs_names. by apply NoDup_filter.
  - intros Hn. apply SortedBy_lessDiff_ascending; [done|]. by apply Hasc.
  - done.
  - intros Hall. split.
    + destruct (is_finite (chroma (LanguageColor_Color lang))) eqn:Hch.
      * by apply Hasc, Hfin.
      * by apply SortedBy_lessDiff_nan, Hnan.
    + intros Hch. split; [by apply Hfin|].
      apply SortedBy_lessDiff_ascending; [|apply Hasc]; by apply Hfin.
Qed.

(** *** Entries that do not parse *)

Section Traversal.

Variable languages : gmap string Language.

(** The entries in the order the [range] visits them. *)
Variable kvs : list (string * Language).

Hypothesis kvs_traversal : kvs ≡ₚ map_to_list languages.

Lemma elem_of_main_tfc (o : LanguageColor) :
  o ∈ main_tfc Pow kvs <->
  exists data, languages !! LanguageColor_Name o = Some data /\
    parses data = true /\ LanguageColor_Color o = labOf Pow data.
Proof.
  rewrite main_tfc_spec, list_elem_of_fmap.
  setoid_rewrite list_elem_of_filter.
  setoid_rewrite kvs_traversal.
  split.
  - intros ([n data] & -> & Hp & Hin%elem_of_map_to_list). eauto.
  - intros (data & Hl & Hp & Hc).
    exists (LanguageColor_Name o, data). split_and!; [|done|].
    + destruct o. cbn in *. by rewrite Hc.
    + by apply elem_of_map_to_list.
Qed.

Lemma main_tfc_NoDup : NoDup (LanguageColor_Name <$> main_tfc Pow kvs).
Proof.
  rewrite main_tfc_spec, <- list_fmap_compose.
  change (LanguageColor_Name ∘ _) with (@fst string Language).
  eapply sublist_NoDup; [|apply fmap_sublist, sublist_filter].
  rewrite kvs_traversal. apply NoDup_fst_map_to_list.
Qed.

Lemma main_tfc_names (name : string) :
  name ∈ LanguageColor_Name <$> main_tfc Pow kvs <-> validIn languages name.
Proof.
  rewrite list_elem_of_fmap. setoid_rewrite elem_of_main_tfc. split.
  - intros (o & -> & data & Hl & Hp & _). by exists data.
  - intros (data & Hl & Hp).
    exists (mkLanguageColor name (labOf Pow data)). split; [done|]. eauto.
Qed.

(** C2: an entry whose colour does not parse is left out and nothing
    stops: the result has a list for exactly the names whose colour
    parses, each list has one difference for each other such name,
    computed from the two parsed colours, and nothing is rendered for or
    about a name whose colour does not parse. *)
Theorem main_drops_unparsable :
  let tfcd := main_tfcd sort_Slice (main_tfc Pow kvs) in
  (forall name, is_Some (tfcd !! name) <-> validIn languages name) /\
  (forall name diffs, tfcd !! name = Some diffs ->
     NoDup (LanguageColorDiff_Name <$> diffs) /\
     (forall other, other ∈ LanguageColorDiff_Name <$> diffs <->
        other <> name /\ validIn languages other) /\
     (forall d, d ∈ diffs ->
        exists dataN dataO,
          languages !! name = Some dataN /\
          languages !! LanguageColorDiff_Name d = Some dataO /\
          LanguageColorDiff_Diff d
          = CIE94Diff (labOf Pow dataN) (labOf Pow dataO))) /\
  (forall langs diffThreshold lang filtered,
     (lang, filtered) ∈ main_report Pow sort_Slice kvs langs diffThreshold ->
     validIn languages lang /\
     forall d, d ∈ filtered -> validIn languages (LanguageColorDiff_Name d)).
Proof.
  cbv zeta. pose proof main_tfc_NoDup as Hnd.
  assert (Hkey : forall name,
    (exists lang, lang ∈ main_tfc Pow kvs /\ LanguageColor_Name lang = name /\
       main_tfcd sort_Slice (main_tfc Pow kvs) !! name
       = Some (sort_Slice (main_diffs lang (main_tfc Pow kvs)) lessDiff))
    \/ (~ validIn languages name /\
        main_tfcd sort_Slice (main_tfc Pow kvs) !! name = None)).
  { intros name.
    destruct (decide (name ∈ LanguageColor_Name <$> main_tfc Pow kvs))
      as [Hin|Hin].
    - left. apply list_elem_of_fmap in Hin as (lang & -> & Hin).
      exists lang. split_and!; [done..|by apply main_tfcd_lookup].
    - right. split; [by rewrite <- main_tfc_names|].
      by apply main_tfcd_lookup_None. }
  assert (Hnames : forall name diffs,
    main_tfcd sort_Slice (main_tfc Pow kvs) !! name = Some diffs ->
    validIn languages name /\
    forall other, other ∈ LanguageColorDiff_Name <$> diffs <->
      other <> name /\ validIn languages other).
  { intros name diffs Hl.
    destruct (Hkey name) as [(lang & Hin & <- & Hs)|[_ Hn]];
      [|by rewrite Hn in Hl].
    rewrite Hs in Hl. injection Hl as <-. split.
    - apply main_tfc_names. by apply list_elem_of_fmap_2.
    - intros other.
      rewrite sort_Slice_perm, main_diffs_names, list_elem_of_filter.
      by rewrite main_tfc_names. }
  split_and!.
  - intros name. split.
    + intros [diffs Hl]. by destruct (Hnames name diffs Hl).
    + intros Hv. destruct (Hkey name) as [(lang & _ & _ & ->)|[Hn _]]; done.
  - intros name diffs Hl.
    destruct (Hkey name) as [(lang & Hin & <- & Hs)|[_ Hn]];
      [|by rewrite Hn in Hl].
    rewrite Hs in Hl. injection Hl as <-.
    split_and!.
    + rewrite sort_Slice_perm, main_diffs_names. by apply NoDup_filter.
    + intros other.
      rewrite sort_Slice_perm, main_diffs_names, list_elem_of_filter.
      by rewrite main_tfc_names.
    + intros d. rewrite sort_Slice_perm, main_diffs_spec, list_elem_of_fmap.
      intros (o & -> & [_ Ho]%list_elem_of_filter).
      apply elem_of_main_tfc in Hin as (dataN & HlN & _ & HcN).
      apply elem_of_main_tfc in Ho as (dataO & HlO & _ & HcO).
      exists dataN, dataO. split_and!; [done..|].
      unfold diffEntry. cbn. by rewrite HcN, HcO.
  - intros langs t lang f. unfold main_report.
    rewrite main_render_spec, list_elem_of_fmap.
    intros (lang' & [= -> ->] & [Hne _]%list_elem_of_filter).
    destruct (main_tfcd sort_Slice (main_tfc Pow kvs) !! lang')
      as [diffs|] eqn:Hl; [|done].
    destruct (Hnames lang' diffs Hl) as [Hv Ho]. split; [done|].
    intros d Hd%main_filtered_sub. cbn [default] in Hd.
    by apply Ho, list_elem_of_fmap_2.
Qed.

End Traversal.

End Ranking.

(** ** The threshold *)

(** C7, as the code has it: when neither the threshold nor a difference
    is NaN and the list ascends, the result is the prefix of the entries
    below the threshold, everything after it being at or above the
    threshold; and a language is rendered exactly when its filtered list
    is not empty. *)
Theorem main_filtered_prefix (diffs : list LanguageColorDiff) (t : float) :
  is_nan t = false -> noNaN diffs -> ascending diffs ->
  (exists rest,
     diffs = main_filtered diffs t ++ rest /\
     Forall (fun d => (LanguageColorDiff_Diff d <? t) = true)
       (main_filtered diffs t) /\
     Forall (fun d => (t <=? LanguageColorDiff_Diff d) = true) rest) /\
  (forall tfcd langs lang f,
     (lang, f) ∈ main_render tfcd langs t <->
     lang ∈ langs /\ f = main_filtered (default [] (tfcd !! lang)) t /\
     f <> []).
Proof.
  intros Ht Hn Hs. apply is_nan_false_SF in Ht. split.
  - destruct (main_filtered_split diffs t) as (rest & Hd & Hall & Hrest).
    exists rest. split; [done|].
    rewrite Hd in Hn, Hs.
    apply Forall_app in Hn as [Hn1 Hn2].
    apply StronglySorted_app in Hs as (_ & _ & Hs).
    split.
    + unfold noNaN in Hn1. rewrite Forall_forall in Hall, Hn1 |- *.
      intros d Hd'. apply float_nleb_ltb;
        [apply is_nan_false_SF; by apply Hn1|done|by apply Hall].
    + destruct rest as [|d rest]; [constructor|].
      apply Forall_cons in Hn2 as [Hnd Hn2].
      apply StronglySorted_cons in Hs as [Hs _].
      constructor; [done|].
      rewrite Forall_forall in Hs, Hn2 |- *. intros x Hx.
      eapply float_leb_trans; [done|apply is_nan_false_SF, Hnd| |exact Hrest|].
      * apply is_nan_false_SF. by apply Hn2.
      * by apply Hs.
  - intros tfcd langs lang f.
    rewrite main_render_spec, list_elem_of_fmap.
    setoid_rewrite list_elem_of_filter. split.
    + intros (lang' & [= -> ->] & Hne & Hin). done.
    + intros (Hin & -> & Hne). by exists lang.
Qed.

(** ** The claims at concrete inputs *)

Section Examples.

Local Open Scope string_scope.

Lemma main_drops_unparsable_witness :
  let tfcd :=
    main_tfcd insertionSort
      (main_tfc Pow_example (map_to_list languages_example)) in
  (forall name, is_Some (tfcd !! name) <-> validIn languages_example name) /\
  (forall name diffs, tfcd !! name = Some diffs ->
     NoDup (LanguageColorDiff_Name <$> diffs) /\
     (forall other, other ∈ LanguageColorDiff_Name <$> diffs <->
        other <> name /\ validIn languages_example other) /\
     (forall d, d ∈ diffs ->
        exists dataN dataO,
          languages_example !! name = Some dataN /\
          languages_example !! LanguageColorDiff_Name d = Some dataO /\
          LanguageColorDiff_Diff d
          = CIE94Diff (labOf Pow_example dataN) (labOf Pow_example dataO))) /\
  (forall langs diffThreshold lang filtered,
     (lang, filtered) ∈ main_report Pow_example insertionSort
                          (map_to_list languages_example) langs diffThreshold ->
     validIn languages_example lang /\
     forall d, d ∈ filtered ->
       validIn languages_example (LanguageColorDiff_Name d)).
Proof.
  apply (main_drops_unparsable Pow_example insertionSort
           (fun l less => insertionSort_perm less l)
           languages_example (map_to_list languages_example)).
  reflexivity.
Defined.

Lemma main_tfcd_ranks_witness :
  exists diffs,
    main_tfcd insertionSort tfc_example !! "A" = Some diffs /\
    diffs ≡ₚ diffEntry (mkLanguageColor "A" (mkLAB 50 10 20)) <$>
      filter (fun o => LanguageColor_Name o <> "A") tfc_example /\
    NoDup (LanguageColorDiff_Name <$> diffs) /\
    (noNaN diffs -> ascending diffs) /\
    (is_finite (chroma (mkLAB 50 10 20)) = false ->
     Forall (fun d => is_nan (LanguageColorDiff_Diff d) = true) diffs) /\
    (Forall (fun o => LAB_finite (LanguageColor_Color o) = true) tfc_example ->
     SortedBy lessDiff diffs /\
     (is_finite (chroma (mkLAB 50 10 20)) = true ->
      noNaN diffs /\ ascending diffs)).
Proof.
  apply (main_tfcd_ranks insertionSort
           (fun l less => insertionSort_perm less l)
           (fun l less => insertionSort_sorted less l)
           tfc_example (mkLanguageColor "A" (mkLAB 50 10 20))).
  - apply (bool_decide_unpack _). vm_compute. reflexivity.
  - apply list_elem_of_here.
Defined.

(** The model runs: the difference lists of [tfc_example], sorted, and
    what is rendered of them below the threshold 20. *)
Example main_tfcd_example :
  main_tfcd insertionSort tfc_example !! "A"
  = Some [ mkLanguageColorDiff "B" 12.109325722364671;
           mkLanguageColorDiff "C" 32.003512316707898 ] /\
  main_tfcd insertionSort tfc_example !! "B"
  = Some [ mkLanguageColorDiff "A" 15.579512258122115;
           mkLanguageColorDiff "C" 35.456606365650401 ] /\
  main_render (main_tfcd insertionSort tfc_example) ["A"; "B"; "C"; "D"] 20
  = [ ("A", [ mkLanguageColorDiff "B" 12.109325722364671 ]);
      ("B", [ mkLanguageColorDiff "A" 15.579512258122115 ]) ].
Proof. split_and!; vm_compute; reflexivity. Qed.

(** The insertion sort on a short slice. *)
Example insertionSort_example :
  insertionSort
    [ mkLanguageColorDiff "x" 3; mkLanguageColorDiff "y" 1;
      mkLanguageColorDiff "z" 2; mkLanguageColorDiff "w" 1 ] lessDiff
  = [ mkLanguageColorDiff "y" 1; mkLanguageColorDiff "w" 1;
      mkLanguageColorDiff "z" 2; mkLanguageColorDiff "x" 3 ].
Proof. reflexivity. Qed.

(** The two sides of the finiteness condition.  In the first table the
    colours are finite and the chroma of [A] overflows: both differences
    from [A] are NaN, and neither is less than the other.  In the second
    one colour has a NaN lightness, which no colour made from three
    bytes has: with a NaN among numbers [lessDiff] is no ordering, and
    the insertion sort that [sort.Slice] runs on so short a slice leaves
    1 after 2. *)
Example main_tfcd_nan_differences :
  main_tfcd insertionSort
    [ mkLanguageColor "A" (mkLAB 0 1e200 0);
      mkLanguageColor "B" (mkLAB 0 0 0);
      mkLanguageColor "C" (mkLAB 1 0 0) ] !! "A"
  = Some [ mkLanguageColorDiff "B" nan; mkLanguageColorDiff "C" nan ] /\
  lessDiff (mkLanguageColorDiff "C" nan) (mkLanguageColorDiff "B" nan) = false /\
  main_tfcd insertionSort
    [ mkLanguageColor "A" (mkLAB 0 0 0);
      mkLanguageColor "B" (mkLAB 2 0 0);
      mkLanguageColor "N" (mkLAB nan 0 0);
      mkLanguageColor "C" (mkLAB 1 0 0) ] !! "A"
  = Some [ mkLanguageColorDiff "B" 2; mkLanguageColorDiff "N" nan;
           mkLanguageColorDiff "C" 1 ] /\
  lessDiff (mkLanguageColorDiff "C" 1) (mkLanguageColorDiff "B" 2) = true.
Proof. split_and!; vm_compute; reflexivity. Qed.

Lemma main_filtered_prefix_witness :
  (exists rest,
     [ mkLanguageColorDiff "B" 1.5; mkLanguageColorDiff "C" 12 ]
     = (main_filtered
          [ mkLanguageColorDiff "B" 1.5; mkLanguageColorDiff "C" 12 ] 10
        ++ rest)%list /\
     Forall (fun d => (LanguageColorDiff_Diff d <? 10)%float = true)
       (main_filtered
          [ mkLanguageColorDiff "B" 1.5; mkLanguageColorDiff "C" 12 ] 10) /\
     Forall (fun d => (10 <=? LanguageColorDiff_Diff d)%float = true) rest) /\
  (forall tfcd langs lang f,
     (lang, f) ∈ main_render tfcd langs 10 <->
     lang ∈ langs /\ f = main_filtered (default [] (tfcd !! lang)) 10 /\
     f <> []).
Proof.
  apply (main_filtered_prefix
           [ mkLanguageColorDiff "B" 1.5; mkLanguageColorDiff "C" 12 ] 10).
  - reflexivity.
  - repeat constructor.
  - repeat constructor.
Defined.

(** C7 as stated fails: against a NaN threshold no difference is
    [>= threshold], so the loop never stops and the entry is kept,
    though its difference is not below the threshold; and a difference
    that is NaN is kept by any threshold. *)
Lemma main_filtered_keeps_not_below :
  main_filtered [ mkLanguageColorDiff "B" 1 ] nan
  = [ mkLanguageColorDiff "B" 1 ] /\
  (1 <? nan)%float = false /\
  main_filtered [ mkLanguageColorDiff "B" nan ] 10
  = [ mkLanguageColorDiff "B" nan ] /\
  (nan <? 10)%float = false.
Proof. split_and!; reflexivity. Qed.

End Examples.

(** * Further properties of the code *)

(** ** HexToRGB: what it accepts and which errors it returns *)

Section HexToRGB_more.

Local Open Scope string_scope.

(** Decoding six characters either gives three bytes, all six being
    digits, or stops at a character among them that is no digit. *)
Lemma Decode6_cases (h1 l1 h2 l2 h3 l3 : ascii) :
  let t := String h1 (String l1 (String h2 (String l2
             (String h3 (String l3 EmptyString))))) in
  (Forall isHexDigit [h1; l1; h2; l2; h3; l3] /\
   exists b0 b1 b2, hex.Decode t = ([b0; b1; b2], None))
  \/ (exists bs c, In c [h1; l1; h2; l2; h3; l3] /\
        hex.fromHexChar c = None /\
        hex.Decode t = (bs, Some (hex.InvalidByteError c))).
Proof.
  cbn [hex.Decode]. unfold isHexDigit.
  destruct (hex.fromHexChar h1) eqn:E1;
    [|right; exists [], h1; cbn; by auto 12].
  destruct (hex.fromHexChar l1) eqn:E2;
    [|right; exists [], l1; cbn; by auto 12].
  destruct (hex.fromHexChar h2) eqn:E3;
    [|right; eexists _, h2; cbn; by auto 12].
  destruct (hex.fromHexChar l2) eqn:E4;
    [|right; eexists _, l2; cbn; by auto 12].
  destruct (hex.fromHexChar h3) eqn:E5;
    [|right; eexists _, h3; cbn; by auto 12].
  destruct (hex.fromHexChar l3) eqn:E6;
    [|right; eexists _, l3; cbn; by auto 12].
  left. split; [|by eauto].
  repeat constructor; by rewrite ?E1, ?E2, ?E3, ?E4, ?E5, ?E6.
Qed.

(** X1: [HexToRGB] succeeds exactly on the strings of seven characters
    whose last six are hexadecimal digits. *)
Theorem HexToRGB_accepts_iff (s : string) :
  snd (HexToRGB s) = None <->
  String.length s = 7%nat /\ Forall isHexDigit (chars (tail1 s)).
Proof.
  destruct (Nat.eq_dec (String.length s) 7%nat) as [H|H].
  - destruct (length7_inv s H) as (c & h1 & l1 & h2 & l2 & h3 & l3 & ->).
    unfold HexToRGB, hex.DecodeString.
    change (negb _) with false. cbn [tail1 chars list_ascii_of_string].
    cbv iota.
    destruct (Decode6_cases h1 l1 h2 l2 h3 l3)
      as [(Hall & b0 & b1 & b2 & ->)|(bs & c' & Hin & Hc & ->)];
      cbn [snd]; split; try done.
    intros [_ Hall]. rewrite Forall_forall in Hall.
    apply list_elem_of_In, Hall in Hin. unfold isHexDigit in Hin.
    rewrite Hc in Hin. by destruct Hin.
  - destruct (HexToRGB_bad_length s H) as [-> _]. cbn [snd].
    split; [done|]. by intros [? _].
Qed.

(** X2: the errors of [HexToRGB].  An error comes with the zero colour
    and is one of two: the format error, for a length other than seven,
    or the [InvalidByteError] of a character of the last six that is no
    hexadecimal digit.  The error of [len(b) != 3] is never returned. *)
Theorem HexToRGB_errors (s : string) (e : error) :
  snd (HexToRGB s) = Some e ->
  fst (HexToRGB s) = RGB_zero /\
  ((String.length s <> 7%nat /\
    e = errorString "expected hex color of form: #RRGGBB")
   \/ (String.length s = 7%nat /\
       exists c, e = hexError (hex.InvalidByteError c) /\
         In c (chars (tail1 s)) /\ hex.fromHexChar c = None)).
Proof.
  intros He. split; [by eapply HexToRGB_error_zero|].
  destruct (Nat.eq_dec (String.length s) 7%nat) as [H|H].
  - right. split; [done|].
    destruct (length7_inv s H) as (c & h1 & l1 & h2 & l2 & h3 & l3 & ->).
    revert He. unfold HexToRGB, hex.DecodeString.
    change (negb _) with false. cbn [tail1 chars list_ascii_of_string].
    cbv iota.
    destruct (Decode6_cases h1 l1 h2 l2 h3 l3)
      as [(Hall & b0 & b1 & b2 & ->)|(bs & c' & Hin & Hc & ->)];
      cbn [snd]; [done|].
    intros [= <-]. by exists c'.
  - left. split; [done|].
    destruct (HexToRGB_bad_length s H) as [Hs _].
    rewrite Hs in He. by injection He as <-.
Qed.

Lemma HexToRGB_errors_witness :
  fst (HexToRGB "#GG0000") = RGB_zero /\
  ((String.length "#GG0000" <> 7%nat /\
    hexError (hex.InvalidByteError "G")
    = errorString "expected hex color of form: #RRGGBB")
   \/ (String.length "#GG0000" = 7%nat /\
       exists c, hexError (hex.InvalidByteError "G")
                 = hexError (hex.InvalidByteError c) /\
         In c (chars (tail1 "#GG0000")) /\ hex.fromHexChar c = None)).
Proof.
  apply (HexToRGB_errors "#GG0000" (hexError (hex.InvalidByteError "G"))).
  reflexivity.
Defined.

Lemma fromHexChar_upperChar (c : ascii) :
  hex.fromHexChar (upperChar c) = hex.fromHexChar c.
Proof.
  destruct c as [[] [] [] [] [] [] [] []]; reflexivity.
Qed.

Lemma length_upper (s : string) : String.length (upper s) = String.length s.
Proof. induction s as [|c s IH]; cbn; congruence. Qed.

(** X3: the case of the letters does not matter: a string and its upper
    case parse to the same colour, and one is accepted when the other
    is. *)
Theorem HexToRGB_upper (s : string) :
  fst (HexToRGB (upper s)) = fst (HexToRGB s) /\
  (snd (HexToRGB (upper s)) = None <-> snd (HexToRGB s) = None).
Proof.
  destruct (Nat.eq_dec (String.length s) 7%nat) as [H|H].
  - destruct (length7_inv s H) as (c & h1 & l1 & h2 & l2 & h3 & l3 & ->).
    unfold HexToRGB, hex.DecodeString. cbn [upper].
    change (negb _) with false. cbn [tail1 hex.Decode]. cbv iota.
    rewrite !fromHexChar_upperChar.
    destruct (hex.fromHexChar h1); [|done].
    destruct (hex.fromHexChar l1); [|done].
    destruct (hex.fromHexChar h2); [|done].
    destruct (hex.fromHexChar l2); [|done].
    destruct (hex.fromHexChar h3); [|done].
    destruct (hex.fromHexChar l3); done.
  - destruct (HexToRGB_bad_length s H) as [-> _].
    destruct (HexToRGB_bad_length (upper s)) as [-> _];
      [by rewrite length_upper|done].
Qed.

End HexToRGB_more.

(** ** RGBToXYZ: where the power function is used *)

(** The gamma branch of [Norm] is taken for the channel values 11 to
    255, the linear one for 0 to 10. *)
Lemma Norm_branch (b : byte) :
  (0.04045 <? float64_of_uint8 b / 255) = (10 <? Byte.to_N b)%N.
Proof. destruct b; reflexivity. Qed.

(** X4: a colour whose three channels are all at most 10 is converted
    without [math.Pow]: whatever the power function, the result is the
    same, the channels divided by 255 and by 12.92. *)
Theorem RGBToXYZ_dark_no_Pow (Pow1 Pow2 : float -> float -> float) (c : RGB) :
  (Byte.to_N (RGB_R c) <=? 10)%N = true ->
  (Byte.to_N (RGB_G c) <=? 10)%N = true ->
  (Byte.to_N (RGB_B c) <=? 10)%N = true ->
  RGBToXYZ Pow1 c = RGBToXYZ Pow2 c /\
  RGBToXYZ Pow1 c
  = let lin := fun b : byte => float64_of_uint8 b / 255 / 12.92 * 100 in
    mkXYZ
      (lin (RGB_R c) * 0.4124 + lin (RGB_G c) * 0.3576 + lin (RGB_B c) * 0.1805)
      (lin (RGB_R c) * 0.2126 + lin (RGB_G c) * 0.7152 + lin (RGB_B c) * 0.0722)
      (lin (RGB_R c) * 0.0193 + lin (RGB_G c) * 0.1192 + lin (RGB_B c) * 0.9505).
Proof.
  intros HR HG HB.
  assert (Hb : forall b, (Byte.to_N b <=? 10)%N = true ->
            (0.04045 <? float64_of_uint8 b / 255) = false).
  { intros b H. rewrite Norm_branch. apply N.ltb_ge. by apply N.leb_le. }
  unfold RGBToXYZ. cbv beta zeta.
  by rewrite !(Hb _ HR), !(Hb _ HG), !(Hb _ HB).
Qed.

Lemma RGBToXYZ_dark_no_Pow_witness :
  RGBToXYZ Pow_example (mkRGB x0a x03 x00)
  = RGBToXYZ (fun _ y => y) (mkRGB x0a x03 x00) /\
  RGBToXYZ Pow_example (mkRGB x0a x03 x00)
  = let lin := fun b : byte => float64_of_uint8 b / 255 / 12.92 * 100 in
    mkXYZ
      (lin x0a * 0.4124 + lin x03 * 0.3576 + lin x00 * 0.1805)
      (lin x0a * 0.2126 + lin x03 * 0.7152 + lin x00 * 0.0722)
      (lin x0a * 0.0193 + lin x03 * 0.1192 + lin x00 * 0.9505).
Proof.
  apply (RGBToXYZ_dark_no_Pow Pow_example (fun _ y => y) (mkRGB x0a x03 x00));
    reflexivity.
Defined.

(** ** CIE94Diff: NaN, and the order of its arguments *)

Section CIE94Diff_more.

Lemma chroma_nan (c : LAB) :
  is_nan (LAB_A c) || is_nan (LAB_B c) = true -> is_nan (chroma c) = true.
Proof.
  intros [H|H]%orb_true_iff; unfold chroma, sq; apply nan_sqrt.
  - by apply nan_add_l, nan_sq.
  - by apply nan_add_r, nan_sq.
Qed.

(** X5: a NaN in any component of either colour makes the result NaN. *)
Theorem CIE94Diff_nan_in (c1 c2 : LAB) :
  LAB_has_nan c1 || LAB_has_nan c2 = true ->
  is_nan (CIE94Diff c1 c2) = true.
Proof.
  intros H.
  change (CIE94Diff c1 c2) with (cie94_spec c1 c2). unfold cie94_spec.
  cbv zeta. apply nan_sqrt, nan_add_l.
  assert (HL : is_nan (LAB_L c1) || is_nan (LAB_L c2) = true \/
               is_nan (chroma c1) || is_nan (chroma c2) = true).
  { unfold LAB_has_nan in H.
    destruct (is_nan (LAB_L c1)) eqn:E1; [by left|].
    destruct (is_nan (LAB_L c2)) eqn:E2; [by left|].
    right. cbn [orb] in H. apply orb_true_iff.
    apply orb_true_iff in H as [H|H]; [left|right]; by apply chroma_nan. }
  destruct HL as [HL|HC].
  - apply nan_add_l, nan_sq, nan_div_l.
    apply orb_true_iff in HL as [HL|HL];
      [by apply nan_sub_r|by apply nan_sub_l].
  - apply nan_add_r, nan_sq, nan_div_l.
    apply orb_true_iff in HC as [HC|HC];
      [by apply nan_sub_r|by apply nan_sub_l].
Qed.

Lemma CIE94Diff_nan_in_witness :
  is_nan (CIE94Diff (mkLAB 50 10 20) (mkLAB 55 nan 7)) = true.
Proof.
  apply (CIE94Diff_nan_in (mkLAB 50 10 20) (mkLAB 55 nan 7)). reflexivity.
Defined.

(** Rounding does not look at the sign. *)
Lemma binary_round_aux_same_abs (s s' : bool) (m e : Z) (l : location) :
  SFsame_abs (binary_round_aux prec emax s m e l)
             (binary_round_aux prec emax s' m e l).
Proof.
  unfold SFsame_abs, binary_round_aux.
  destruct (shr_fexp prec emax m e l) as [mrs' e'].
  destruct (shr_fexp prec emax _ e' loc_Exact) as [mrs'' e''].
  destruct (shr_m mrs''); try done. by destruct (_ <=? _)%Z.
Qed.

Lemma binary_normalize_opp (m e : Z) :
  SFsame_abs (binary_normalize prec emax m e false)
             (binary_normalize prec emax (- m) e false).
Proof.
  destruct m as [|p|p]; [done|..].
  - change (binary_normalize prec emax (- Z.pos p) e false)
      with (binary_round prec emax true p e).
    cbn [binary_normalize]. unfold binary_round.
    destruct (shl_align _ _ _). apply binary_round_aux_same_abs.
  - change (binary_normalize prec emax (- Z.neg p) e false)
      with (binary_round prec emax false p e).
    cbn [binary_normalize]. unfold binary_round.
    destruct (shl_align _ _ _). apply binary_round_aux_same_abs.
Qed.

(** [x - y] and [y - x] differ at most in their sign. *)
Lemma SFsub_swap (x y : spec_float) :
  SFsame_abs (SFsub prec emax x y) (SFsub prec emax y x).
Proof.
  unfold SFsame_abs.
  destruct x as [sx|sx| |sx mx ex], y as [sy|sy| |sy my ey];
    cbn [SFsub]; try done; try (by destruct sx, sy).
  rewrite (Z.min_comm ey ex).
  set (a := cond_Zopp sx _). set (b := cond_Zopp sy _).
  replace (b - a)%Z with (- (a - b))%Z by lia.
  apply binary_normalize_opp.
Qed.

Lemma SFmul_same_abs (x y : spec_float) :
  SFsame_abs x y -> SFmul prec emax x x = SFmul prec emax y y.
Proof.
  unfold SFsame_abs.
  destruct x as [sx|sx| |sx mx ex], y as [sy|sy| |sy my ey];
    cbn [SFabs SFmul]; try done; intros [= ]; subst;
    by destruct sx, sy.
Qed.

Lemma SFdiv_same_abs (x y z : spec_float) :
  SFsame_abs x y ->
  SFsame_abs (SFdiv prec emax x z) (SFdiv prec emax y z).
Proof.
  unfold SFsame_abs.
  destruct x as [sx|sx| |sx mx ex], y as [sy|sy| |sy my ey];
    cbn [SFabs]; try done; intros [= ]; subst;
    destruct z as [sz|sz| |sz mz ez]; cbn [SFdiv SFabs]; try done.
  destruct (SFdiv_core_binary prec emax (Z.pos my) ey (Z.pos mz) ez)
    as [[q e'] l].
  apply binary_round_aux_same_abs.
Qed.

(** The square of a difference, and of a difference over [z], does not
    depend on the order of the two numbers. *)
Lemma sq_sub_swap (x y : float) : sq (x - y) = sq (y - x).
Proof.
  unfold sq. apply Prim2SF_inj.
  rewrite !FloatAxioms.mul_spec, !FloatAxioms.sub_spec.
  apply SFmul_same_abs, SFsub_swap.
Qed.

Lemma sq_div_sub_swap (x y z : float) : sq ((x - y) / z) = sq ((y - x) / z).
Proof.
  unfold sq. apply Prim2SF_inj.
  rewrite !FloatAxioms.mul_spec, !FloatAxioms.div_spec, !FloatAxioms.sub_spec.
  apply SFmul_same_abs, SFdiv_same_abs, SFsub_swap.
Qed.

(** X6: between two colours of the same chroma the difference is the
    same in both directions; what makes [CIE94Diff] asymmetric is only
    that [SC] and [SH] come from the first colour's chroma. *)
Theorem CIE94Diff_sym_same_chroma (c1 c2 : LAB) :
  chroma c1 = chroma c2 -> CIE94Diff c1 c2 = CIE94Diff c2 c1.
Proof.
  intros Hch.
  change (CIE94Diff ?a ?b) with (cie94_spec a b). unfold cie94_spec.
  cbv zeta. unfold cie94_SC, cie94_SH. rewrite Hch.
  rewrite (sq_sub_swap (LAB_L c1) (LAB_L c2)),
    (sq_sub_swap (LAB_A c1) (LAB_A c2)), (sq_sub_swap (LAB_B c1) (LAB_B c2)),
    (sq_div_sub_swap (LAB_L c2) (LAB_L c1)).
  reflexivity.
Qed.

Lemma CIE94Diff_sym_same_chroma_witness :
  CIE94Diff (mkLAB 50 3 4) (mkLAB 60 (-4) 3)
  = CIE94Diff (mkLAB 60 (-4) 3) (mkLAB 50 3 4).
Proof.
  apply (CIE94Diff_sym_same_chroma (mkLAB 50 3 4) (mkLAB 60 (-4) 3)).
  reflexivity.
Defined.

(** With different chromas the two directions differ. *)
Example CIE94Diff_asymmetric :
  CIE94Diff (mkLAB 50 10 20) (mkLAB 55 (-3) 7) = 12.109325722364671 /\
  CIE94Diff (mkLAB 55 (-3) 7) (mkLAB 50 10 20) = 15.579512258122115.
Proof. split; reflexivity. Qed.

End CIE94Diff_more.

(** ** The threshold: what is kept, and how it grows *)

Section Threshold_more.

Lemma leb_true_nonNaN (x y : float) :
  (x <=? y) = true -> nonNaN x /\ nonNaN y.
Proof.
  rewrite FloatAxioms.leb_spec. unfold nonNaN, SFleb.
  destruct (Prim2SF x), (Prim2SF y); cbn [SFcompare]; done.
Qed.

(** What is not at or above a threshold is not at or above a greater
    one. *)
Lemma not_leb_mono (t1 t2 d : float) :
  (t1 <=? t2) = true -> (t1 <=? d) = false -> (t2 <=? d) = false.
Proof.
  intros H12 H1.
  destruct (t2 <=? d) eqn:H2; [|done].
  destruct (leb_true_nonNaN _ _ H12) as [Hn1 Hn2].
  destruct (leb_true_nonNaN _ _ H2) as [_ Hnd].
  by rewrite (float_leb_trans t1 t2 d Hn1 Hn2 Hnd H12 H2) in H1.
Qed.

(** X7: filtering is idempotent: filtering a filtered list again with
    the same threshold changes nothing, whatever the list and the
    threshold. *)
Theorem main_filtered_idempotent (diffs : list LanguageColorDiff) (t : float) :
  main_filtered (main_filtered diffs t) t = main_filtered diffs t.
Proof.
  induction diffs as [|d diffs IH]; cbn [main_filtered]; [done|].
  destruct (t <=? LanguageColorDiff_Diff d) eqn:E; [done|].
  cbn [main_filtered]. by rewrite E, IH.
Qed.

(** X8: a greater threshold keeps at least as much: the list filtered
    with [t1] is a prefix of the list filtered with [t2] when
    [t1 <= t2]. *)
Theorem main_filtered_mono (diffs : list LanguageColorDiff) (t1 t2 : float) :
  (t1 <=? t2) = true ->
  main_filtered diffs t1 `prefix_of` main_filtered diffs t2.
Proof.
  intros H12. induction diffs as [|d diffs IH]; cbn [main_filtered]; [done|].
  destruct (t1 <=? LanguageColorDiff_Diff d) eqn:E1; [apply prefix_nil|].
  rewrite (not_leb_mono t1 t2 _ H12 E1). by apply prefix_cons.
Qed.

Lemma main_filtered_mono_witness :
  main_filtered
    [ mkLanguageColorDiff "B" 1.5; mkLanguageColorDiff "C" 12 ] 10
  `prefix_of`
  main_filtered
    [ mkLanguageColorDiff "B" 1.5; mkLanguageColorDiff "C" 12 ] 20.
Proof.
  apply (main_filtered_mono
           [ mkLanguageColorDiff "B" 1.5; mkLanguageColorDiff "C" 12 ] 10 20).
  reflexivity.
Defined.

(** X9: whatever the table, the languages and the threshold, each
    rendered list is a prefix of the stored list of its language, is not
    empty, and holds no difference that is at or above the threshold. *)
Theorem main_render_blocks (tfcd : gmap string (list LanguageColorDiff))
  (langs : list string) (t : float) (lang : string)
  (filtered : list LanguageColorDiff) :
  (lang, filtered) ∈ main_render tfcd langs t ->
  lang ∈ langs /\ filtered <> [] /\
  filtered `prefix_of` default [] (tfcd !! lang) /\
  Forall (fun d => (t <=? LanguageColorDiff_Diff d) = false) filtered.
Proof.
  rewrite main_render_spec, list_elem_of_fmap.
  intros (lang' & [= -> ->] & [Hne Hin]%list_elem_of_filter).
  split_and!; [done..| |].
  - destruct (main_filtered_split (default [] (tfcd !! lang')) t)
      as (rest & Hd & _).
    by exists rest.
  - by destruct (main_filtered_split (default [] (tfcd !! lang')) t)
      as (rest & _ & Hall & _).
Qed.

Lemma main_render_blocks_witness :
  "A"%string ∈ [ "A"%string; "B"%string; "C"%string; "D"%string ] /\
  [ mkLanguageColorDiff "B" 12.109325722364671 ] <> [] /\
  [ mkLanguageColorDiff "B" 12.109325722364671 ]
    `prefix_of` default [] (main_tfcd insertionSort tfc_example !! "A"%string) /\
  Forall (fun d => (20 <=? LanguageColorDiff_Diff d) = false)
    [ mkLanguageColorDiff "B" 12.109325722364671 ].
Proof.
  apply (main_render_blocks (main_tfcd insertionSort tfc_example)
           [ "A"%string; "B"%string; "C"%string; "D"%string ] 20 "A"%string
           [ mkLanguageColorDiff "B" 12.109325722364671 ]).
  vm_compute. apply list_elem_of_here.
Defined.

End Threshold_more.

(** ** The table of differences: sizes, and the order of the traversal *)

Section Ranking_more.

Variable Pow : float -> float -> float.

Variable sort_Slice :
  list LanguageColorDiff -> (LanguageColorDiff -> LanguageColorDiff -> bool) ->
  list LanguageColorDiff.

Hypothesis sort_Slice_perm : forall l less, sort_Slice l less ≡ₚ l.

Lemma filter_all {T} (P : T -> Prop) `{!forall x, Decision (P x)}
  (l : list T) :
  Forall P l -> filter P l = l.
Proof.
  induction 1 as [|x l Hx Hl IH]; [done|].
  by rewrite filter_cons, decide_True, IH.
Qed.

Lemma filter_others_length (tfc : list LanguageColor) (lang : LanguageColor) :
  NoDup (LanguageColor_Name <$> tfc) -> lang ∈ tfc ->
  S (length (filter (fun o => LanguageColor_Name o <> LanguageColor_Name lang)
               tfc))
  = length tfc.
Proof.
  induction tfc as [|o tfc IH]; intros Hnd Hin; [by inversion Hin|].
  rewrite fmap_cons in Hnd. apply NoDup_cons in Hnd as [Ho Hnd].
  rewrite filter_cons.
  apply elem_of_cons in Hin as [->|Hin].
  - rewrite decide_False by (by intros ?). cbn [length]. f_equal.
    rewrite filter_all; [done|].
    apply Forall_forall. intros x Hx Heq. apply Ho. rewrite <- Heq.
    by apply list_elem_of_fmap_2.
  - rewrite decide_True.
    + cbn [length]. f_equal. by apply IH.
    + intros Heq. apply Ho. rewrite Heq. by apply list_elem_of_fmap_2.
Qed.

(** X10: with [n] uniquely named colours in the table, the list of each
    name has [n - 1] differences. *)
Theorem main_tfcd_length (tfc : list LanguageColor) (lang : LanguageColor) :
  NoDup (LanguageColor_Name <$> tfc) -> lang ∈ tfc ->
  length <$> (main_tfcd sort_Slice tfc !! LanguageColor_Name lang)
  = Some (length tfc - 1)%nat.
Proof.
  intros Hnd Hin. rewrite main_tfcd_lookup by done. cbn [fmap option_fmap option_map].
  f_equal. rewrite sort_Slice_perm, main_diffs_spec, length_fmap.
  pose proof (filter_others_length tfc lang Hnd Hin). lia.
Qed.

(** The table for a configuration visited in the order [kvs]: a name
    whose colour parses has the sorted differences of its colour to the
    others, and no other name has a list. *)
Lemma main_tfcd_of_traversal (languages : gmap string Language)
  (kvs : list (string * Language)) (name : string) :
  kvs ≡ₚ map_to_list languages ->
  main_tfcd sort_Slice (main_tfc Pow kvs) !! name
  = match languages !! name with
    | Some data =>
        if parses data
        then Some (sort_Slice
                     (main_diffs (mkLanguageColor name (labOf Pow data))
                        (main_tfc Pow kvs)) lessDiff)
        else None
    | None => None
    end.
Proof.
  intros Hkvs.
  destruct (decide (name ∈ LanguageColor_Name <$> main_tfc Pow kvs))
    as [Hin|Hin].
  - pose proof Hin as (lang & -> & Hl)%list_elem_of_fmap.
    rewrite (main_tfcd_lookup sort_Slice _ lang)
      by (done || by eapply main_tfc_NoDup).
    apply (elem_of_main_tfc Pow languages kvs Hkvs) in Hl
      as (data & -> & -> & Hc).
    destruct lang as [n col]. cbn in *. by subst.
  - rewrite main_tfcd_lookup_None by done.
    destruct (languages !! name) as [data|] eqn:El; [|done].
    destruct (parses data) eqn:Ep; [|done].
    exfalso. apply Hin.
    apply (main_tfc_names Pow languages kvs Hkvs). by exists data.
Qed.

(** X11: the order in which [range] visits the map does not matter: for
    two traversals of one configuration the two tables have the same
    names, and the two lists of a name hold the same differences. *)
Theorem main_tfcd_order_independent (languages : gmap string Language)
  (kvs1 kvs2 : list (string * Language)) (name : string) :
  kvs1 ≡ₚ map_to_list languages -> kvs2 ≡ₚ map_to_list languages ->
  option_Forall2 (≡ₚ)
    (main_tfcd sort_Slice (main_tfc Pow kvs1) !! name)
    (main_tfcd sort_Slice (main_tfc Pow kvs2) !! name).
Proof.
  intros H1 H2.
  rewrite (main_tfcd_of_traversal languages kvs1 name H1),
    (main_tfcd_of_traversal languages kvs2 name H2).
  destruct (languages !! name) as [data|]; [|constructor].
  destruct (parses data); constructor.
  rewrite !sort_Slice_perm, !main_diffs_spec, !main_tfc_spec.
  by rewrite H1, H2.
Qed.

End Ranking_more.

(** ** The languages that are reported, and their order *)

Section String_order.

Lemma ascii_compare_refl (a : ascii) : Ascii.compare a a = Eq.
Proof. unfold Ascii.compare. apply N.compare_refl. Qed.

Lemma ascii_compare_lt_trans (a b c : ascii) :
  Ascii.compare a b = Lt -> Ascii.compare b c = Lt -> Ascii.compare a c = Lt.
Proof. unfold Ascii.compare. rewrite !N.compare_lt_iff. lia. Qed.

Lemma string_compare_refl (a : string) : String.compare a a = Eq.
Proof.
  induction a as [|x a IH]; cbn; [done|]. by rewrite ascii_compare_refl.
Qed.

Lemma string_compare_lt_trans (a b c : string) :
  String.compare a b = Lt -> String.compare b c = Lt ->
  String.compare a c = Lt.
Proof.
  revert b c. induction a as [|x a IH]; intros [|y b] [|z c]; cbn; try done.
  destruct (Ascii.compare x y) eqn:Exy; try done;
    destruct (Ascii.compare y z) eqn:Eyz; try done.
  - apply Ascii.compare_eq_iff in Exy, Eyz. subst.
    rewrite ascii_compare_refl. apply IH.
  - apply Ascii.compare_eq_iff in Exy. subst. by rewrite Eyz.
  - apply Ascii.compare_eq_iff in Eyz. subst. by rewrite Exy.
  - by rewrite (ascii_compare_lt_trans x y z).
Qed.

(** [a < b] fails exactly when [b <= a]. *)
Lemma string_ltb_false (a b : string) :
  String.ltb a b = false -> a = b \/ String.compare b a = Lt.
Proof.
  unfold String.ltb. destruct (String.compare a b) eqn:E; [| done |]; intros _.
  - left. by apply String.compare_eq_iff.
  - right. rewrite String.compare_antisym, E. done.
Qed.

Lemma string_ltb_asym (a b : string) :
  String.compare a b = Lt -> String.ltb b a = false.
Proof.
  intros E. unfold String.ltb. by rewrite String.compare_antisym, E.
Qed.

(** The order of Go's [<] on strings is a strict total order. *)
Lemma string_ltb_StrictWeakOn (l : list string) : StrictWeakOn String.ltb l.
Proof.
  split_and!.
  - intros x _. unfold String.ltb. by rewrite string_compare_refl.
  - intros x y z _ _ _. unfold String.ltb.
    destruct (String.compare x y) eqn:Exy; try done.
    destruct (String.compare y z) eqn:Eyz; try done.
    by rewrite (string_compare_lt_trans x y z).
  - intros x y z _ _ _ [->|Hyx]%string_ltb_false; [done|].
    intros [->|Hzy]%string_ltb_false; [by apply string_ltb_asym|].
    apply string_ltb_asym. by apply (string_compare_lt_trans z y x).
Qed.

End String_order.

Section MainRun_more.

Variable Pow : float -> float -> float.

Variable sort_Slice :
  list LanguageColorDiff -> (LanguageColorDiff -> LanguageColorDiff -> bool) ->
  list LanguageColorDiff.

Variable sort_Strings : list string -> list string.

(** What [sort.Strings] is taken to do: it rearranges the slice, and
    afterwards no string is less than one that stands before it. *)
Hypothesis sort_Strings_perm : forall l, sort_Strings l ≡ₚ l.

Hypothesis sort_Strings_sorted : forall l, SortedBy String.ltb (sort_Strings l).

Lemma main_langs_default (kvs : list (string * Language)) :
  main_langs sort_Strings [] kvs = sort_Strings (kvs.*1).
Proof.
  unfold main_langs. cbn [List.length Nat.eqb negb]. f_equal.
  enough (H : forall acc,
    fold_left (fun langs '(name, _) => langs ++ [name]) kvs acc
    = acc ++ kvs.*1) by apply (H []).
  induction kvs as [|[name data] kvs IH]; intros acc; cbn [fold_left].
  - by rewrite app_nil_r.
  - rewrite IH, <- app_assoc. done.
Qed.

Lemma main_langs_args (args : list string) (kvs : list (string * Language)) :
  args <> [] -> main_langs sort_Strings args kvs = args.
Proof. unfold main_langs. by destruct args. Qed.

Lemma main_render_names (tfcd : gmap string (list LanguageColorDiff))
  (langs : list string) (t : float) :
  (main_render tfcd langs t).*1 = filter (reported tfcd t) langs.
Proof.
  rewrite main_render_spec, <- list_fmap_compose.
  unfold reported. generalize (filter
    (fun lang => main_filtered (default [] (tfcd !! lang)) t <> []) langs).
  intros l. induction l as [|x l IH]; [done|]. cbn. by f_equal.
Qed.

(** Only a name that is configured with a colour that parses has a block. *)
Lemma reported_validIn (languages : gmap string Language)
  (kvs : list (string * Language)) (t : float) (name : string) :
  kvs ≡ₚ map_to_list languages ->
  reported (main_tfcd sort_Slice (main_tfc Pow kvs)) t name ->
  validIn languages name.
Proof.
  intros Hkvs Hr.
  apply (main_tfc_names Pow languages kvs Hkvs).
  destruct (decide (name ∈ LanguageColor_Name <$> main_tfc Pow kvs))
    as [Hin|Hin]; [done|].
  exfalso. apply Hr. by rewrite main_tfcd_lookup_None.
Qed.

(** Sorted and without duplicates is strictly ascending. *)
Lemma SortedBy_ltb_strict (l : list string) :
  NoDup l -> SortedBy String.ltb l ->
  StronglySorted (fun a b => String.ltb a b = true) l.
Proof.
  unfold SortedBy. induction 1 as [|x l Hx Hnd IH]; intros Hs; [constructor|].
  apply StronglySorted_cons in Hs as [Hall Hs].
  apply StronglySorted_cons. split; [|by apply IH].
  rewrite Forall_forall in Hall |- *. intros y Hy.
  destruct (string_ltb_false y x (Hall y Hy)) as [->|E]; [done|].
  unfold String.ltb. by rewrite E.
Qed.

Lemma StronglySorted_filter {T} (R : T -> T -> Prop) (P : T -> Prop)
  `{!forall x, Decision (P x)} (l : list T) :
  StronglySorted R l -> StronglySorted R (filter P l).
Proof.
  induction 1 as [|x l Hs IH Hall]; [constructor|].
  rewrite filter_cons. destruct (decide (P x)); [|done].
  constructor; [done|].
  rewrite Forall_forall in Hall |- *. intros y Hy.
  apply list_elem_of_filter in Hy as [_ Hy]. by apply Hall.
Qed.

(** X12: without arguments the report has one block for every language
    that has a difference below the threshold, each once, in the
    ascending order of the names' bytes; all of them are configured with
    a colour that parses. *)
Theorem main_run_default (languages : gmap string Language)
  (kvs1 kvs2 : list (string * Language)) (diffThreshold : float) :
  kvs1 ≡ₚ map_to_list languages -> kvs2 ≡ₚ map_to_list languages ->
  let tfcd := main_tfcd sort_Slice (main_tfc Pow kvs1) in
  let out := main_run Pow sort_Slice sort_Strings kvs1 kvs2 [] diffThreshold in
  StronglySorted (fun a b => String.ltb a b = true) (out.*1) /\
  (forall name, name ∈ out.*1 <-> reported tfcd diffThreshold name) /\
  (forall name, name ∈ out.*1 -> validIn languages name).
Proof.
  intros H1 H2 tfcd out.
  assert (Hout : out.*1 = filter (reported tfcd diffThreshold)
                            (sort_Strings (kvs2.*1))).
  { unfold out, main_run, main_report.
    by rewrite main_render_names, main_langs_default. }
  assert (Hin : forall name, name ∈ out.*1 <-> reported tfcd diffThreshold name).
  { intros name. rewrite Hout, list_elem_of_filter, sort_Strings_perm, H2.
    split; [by intros [? _]|]. intros Hr. split; [done|].
    destruct (reported_validIn languages kvs1 diffThreshold name H1 Hr)
      as (data & Hl & _).
    apply list_elem_of_fmap. exists (name, data). split; [done|].
    by apply elem_of_map_to_list. }
  split_and!; [|done|].
  - rewrite Hout. apply StronglySorted_filter, SortedBy_ltb_strict; [|done].
    rewrite sort_Strings_perm, H2. apply NoDup_fst_map_to_list.
  - intros name Hn. apply Hin in Hn.
    by apply (reported_validIn languages kvs1 diffThreshold).
Qed.

(** X13: with arguments the report follows the command line: one block
    for every argument that has a difference below the threshold, in the
    order of the arguments and as often as the argument is given; the
    second traversal of the configuration plays no part. *)
Theorem main_run_args (kvs1 kvs2 kvs2' : list (string * Language))
  (args : list string) (diffThreshold : float) :
  args <> [] ->
  let tfcd := main_tfcd sort_Slice (main_tfc Pow kvs1) in
  let out := main_run Pow sort_Slice sort_Strings kvs1 kvs2 args diffThreshold in
  out.*1 = filter (reported tfcd diffThreshold) args /\
  out = main_run Pow sort_Slice sort_Strings kvs1 kvs2' args diffThreshold.
Proof.
  intros Ha tfcd out. unfold out, main_run, main_report.
  rewrite !main_langs_args by done. by rewrite main_render_names.
Qed.

End MainRun_more.

(** ** The further properties at concrete inputs *)

Section Examples_more.

Local Open Scope string_scope.

Lemma main_tfcd_length_witness :
  length <$> (main_tfcd insertionSort tfc_example !! "B") = Some 2%nat.
Proof.
  apply (main_tfcd_length insertionSort
           (fun l less => insertionSort_perm less l)
           tfc_example (mkLanguageColor "B" (mkLAB 55 (-3) 7))).
  - apply (bool_decide_unpack _). vm_compute. reflexivity.
  - apply list_elem_of_further, list_elem_of_here.
Defined.

Lemma main_tfcd_order_independent_witness :
  option_Forall2 (≡ₚ)
    (main_tfcd insertionSort
       (main_tfc Pow_example (map_to_list languages_rgb)) !! "Red")
    (main_tfcd insertionSort
       (main_tfc Pow_example (reverse (map_to_list languages_rgb))) !! "Red").
Proof.
  apply (main_tfcd_order_independent Pow_example insertionSort
           (fun l less => insertionSort_perm less l) languages_rgb).
  - reflexivity.
  - apply reverse_Permutation.
Defined.

Lemma main_run_default_witness :
  let tfcd :=
    main_tfcd insertionSort
      (main_tfc Pow_example (map_to_list languages_rgb)) in
  let out :=
    main_run Pow_example insertionSort (fun l => insertionSort l String.ltb)
      (map_to_list languages_rgb) (reverse (map_to_list languages_rgb))
      [] 10 in
  StronglySorted (fun a b => String.ltb a b = true) (out.*1) /\
  (forall name, name ∈ out.*1 <-> reported tfcd 10 name) /\
  (forall name, name ∈ out.*1 -> validIn languages_rgb name).
Proof.
  apply (main_run_default Pow_example insertionSort
           (fun l => insertionSort l String.ltb)
           (fun l => insertionSort_perm String.ltb l)
           (fun l => insertionSort_sorted String.ltb l
                       (string_ltb_StrictWeakOn l))
           languages_rgb).
  - reflexivity.
  - apply reverse_Permutation.
Defined.

Lemma main_run_args_witness :
  let tfcd :=
    main_tfcd insertionSort
      (main_tfc Pow_example (map_to_list languages_rgb)) in
  let out :=
    main_run Pow_example insertionSort (fun l => insertionSort l String.ltb)
      (map_to_list languages_rgb) (map_to_list languages_rgb)
      ["Red"; "Broken"; "Red"] 10 in
  out.*1 = filter (reported tfcd 10) ["Red"; "Broken"; "Red"] /\
  out = main_run Pow_example insertionSort
          (fun l => insertionSort l String.ltb)
          (map_to_list languages_rgb) [] ["Red"; "Broken"; "Red"] 10.
Proof.
  apply (main_run_args Pow_example insertionSort
           (fun l => insertionSort l String.ltb)
           (map_to_list languages_rgb) (map_to_list languages_rgb) []
           ["Red"; "Broken"; "Red"] 10).
  discriminate.
Defined.

(** The model runs: the report of [languages_rgb] at the threshold 10,
    without arguments and with three. *)
Example main_run_example :
  (main_run Pow_example insertionSort (fun l => insertionSort l String.ltb)
     (map_to_list languages_rgb) (reverse (map_to_list languages_rgb))
     [] 10).*1
  = ["Crimson"; "Red"] /\
  (main_run Pow_example insertionSort (fun l => insertionSort l String.ltb)
     (map_to_list languages_rgb) (map_to_list languages_rgb)
     ["Red"; "Broken"; "Red"] 10).*1
  = ["Red"; "Red"].
Proof. split; vm_compute; reflexivity. Qed.

End Examples_more.
